(** * LLMCodeStability: the verification engine and the generation harness

  A shallow embedding of [scripts/unit_test.py] and
  [scripts/codegenerate_parallel-Codecontest-2.py].

  - [Py]       Python data as the scripts use it: [str] methods, JSON-shaped
               values, insertion-ordered dicts, hashable keys, exceptions.
  - [Json]     [json.dumps] for those values.
  - [UnitTest] [load_jsonl], the synthesized test code, [_worker] and
               [run_unittest] over an explicit process/clock state.
  - [CodeGen]  [load_dataset], [create_completion], [process_one_completion],
               the resume ledger, the job list and the locked result sink
               as an interleaving of worker threads.

  What the scripts call but do not define is a parameter of the model: the
  JSON parser, the Python interpreter running in the child process, the
  model-serving client, the uuid source.

  Conventions.  A Python [str] is a [string]; its characters are the code
  points 0..255.  JSON numbers are integers.  Time is in milliseconds. *)

From Stdlib Require Import ZArith Ascii String.
From stdpp Require Import base list strings pretty gmap.

Set Warnings "-register-all".
Set Default Proof Using "Type".

(* ================================================================== *)
(** * Python data *)
(* ================================================================== *)

Module Py.

(** The newline and the double quote, which a literal cannot hold. *)
Definition nl_char : ascii := "010"%char.
Definition cr_char : ascii := "013"%char.
Definition nl : string := String nl_char "".
Definition dq : string := String "034"%char "".

(** [str.isspace] on one character: among the code points below 256
    Python counts 9..13, 28..32, 133 and 160 as whitespace. *)
Definition is_space (c : ascii) : bool :=
  let n := N_of_ascii c in
  ((9 <=? n) && (n <=? 13) || (28 <=? n) && (n <=? 32)
   || (n =? 133) || (n =? 160))%N.

(** [s.lstrip()], [s.rstrip()] and [s.strip()]. *)
Fixpoint lstrip (s : string) : string :=
  match s with
  | String c s' => if is_space c then lstrip s' else s
  | EmptyString => EmptyString
  end.

Fixpoint rstrip (s : string) : string :=
  match s with
  | EmptyString => EmptyString
  | String c s' =>
      match rstrip s' with
      | EmptyString => if is_space c then EmptyString else String c EmptyString
      | r => String c r
      end
  end.

Definition strip (s : string) : string := rstrip (lstrip s).

(** Every character of [s] is whitespace ([s] may be empty). *)
Fixpoint blank (s : string) : bool :=
  match s with
  | EmptyString => true
  | String c s' => is_space c && blank s'
  end.

(** [s.split(sep)] for a separator of one character. *)
Fixpoint split (sep : ascii) (s : string) : list string :=
  match s with
  | EmptyString => [EmptyString]
  | String c s' =>
      if Ascii.eqb c sep then EmptyString :: split sep s'
      else match split sep s' with
           | h :: t => String c h :: t
           | [] => [String c EmptyString]
           end
  end.

(** [sep.join(l)]. *)
Fixpoint join (sep : string) (l : list string) : string :=
  match l with
  | [] => ""
  | [x] => x
  | x :: l' => x +:+ sep +:+ join sep l'
  end.

(** [''.join(l)]. *)
Fixpoint concat (l : list string) : string :=
  match l with
  | [] => ""
  | x :: l' => x +:+ concat l'
  end.

(** [s.endswith(t)]. *)
Fixpoint endswith (s t : string) : bool :=
  String.eqb s t ||
  match s with
  | String _ s' => endswith s' t
  | EmptyString => false
  end.

(** [c in s] for a character. *)
Fixpoint has_char (c : ascii) (s : string) : bool :=
  match s with
  | EmptyString => false
  | String a s' => Ascii.eqb a c || has_char c s'
  end.

(** No character of [s] is a control character. *)
Fixpoint printable (s : string) : bool :=
  match s with
  | EmptyString => true
  | String a s' => (32 <=? N_of_ascii a)%N && printable s'
  end.

(** Iterating a text file opened with the default [newline=None]: the
    file is cut after each line end, and the line ends [\r\n] and [\r]
    are handed over as [\n]. *)
Fixpoint readlines (s : string) : list string :=
  match s with
  | EmptyString => []
  | String c s' =>
      if Ascii.eqb c nl_char then nl :: readlines s'
      else if Ascii.eqb c cr_char then
        match s' with
        | String c' s'' =>
            if Ascii.eqb c' nl_char then nl :: readlines s''
            else nl :: readlines s'
        | EmptyString => [nl]
        end
      else match readlines s' with
           | l :: ls => String c l :: ls
           | [] => [String c EmptyString]
           end
  end.

(** JSON-shaped Python values: what [json.loads] hands to the scripts and
    what they build from it.  A dict keeps its insertion order. *)
Inductive value :=
| VNone
| VBool (b : bool)
| VInt (z : Z)
| VStr (s : string)
| VList (l : list value)
| VDict (d : list (string * value)).

Definition dict := list (string * value).

(** [d[k]] as an option, [d.get(k, dflt)], [d[k] = v], [d.update(d')]. *)
Fixpoint lookup (k : string) (d : dict) : option value :=
  match d with
  | [] => None
  | (k', v) :: d' => if String.eqb k' k then Some v else lookup k d'
  end.

Definition get (k : string) (dflt : value) (d : dict) : value :=
  default dflt (lookup k d).

Fixpoint set (k : string) (v : value) (d : dict) : dict :=
  match d with
  | [] => [(k, v)]
  | (k', v') :: d' =>
      if String.eqb k' k then (k', v) :: d' else (k', v') :: set k v d'
  end.

Definition update (d d' : dict) : dict :=
  foldl (λ acc kv, set kv.1 kv.2 acc) d d'.

(** A dict display [{k1: v1, ...}]: later entries win over earlier ones. *)
Definition mk (entries : dict) : dict := update [] entries.

(** The exceptions the scripts can meet. *)
Inductive exn :=
| JSONDecodeError
| ValueError (msg : string)
| TypeError
| AttributeError
| KeyError (k : string).

(** A call either returns or raises. *)
Inductive res (A : Type) :=
| Ok (a : A)
| Raise (e : exn).
Arguments Ok {A} a.
Arguments Raise {A} e.

Definition res_bind {A B} (m : res A) (f : A → res B) : res B :=
  match m with
  | Ok a => f a
  | Raise e => Raise e
  end.

(** [v.get(...)] and friends exist on dicts only; [v.strip()] on str only. *)
Definition as_dict (v : value) : res dict :=
  match v with
  | VDict d => Ok d
  | _ => Raise AttributeError
  end.

Definition as_str (v : value) : res string :=
  match v with
  | VStr s => Ok s
  | _ => Raise AttributeError
  end.

(** What a [for] loop over [v] visits: the items of a list, the keys of a
    dict, the characters of a str; the other values are not iterable. *)
Definition iterate (v : value) : res (list value) :=
  match v with
  | VList l => Ok l
  | VDict d => Ok (map (λ kv, VStr kv.1) d)
  | VStr s => Ok (map (λ c, VStr (String c "")) (list_ascii_of_string s))
  | _ => Raise TypeError
  end.

(** [bool(v)]. *)
Definition truthy (v : value) : bool :=
  match v with
  | VNone => false
  | VBool b => b
  | VInt z => negb (z =? 0)%Z
  | VStr s => negb (String.eqb s "")
  | VList l => match l with [] => false | _ => true end
  | VDict d => match d with [] => false | _ => true end
  end.

(** Members of a [set]: hashable values up to Python equality, under
    which [True] is [1] and [False] is [0].  Lists and dicts are not
    hashable. *)
Inductive hkey :=
| KNone
| KInt (z : Z)
| KStr (s : string).

Definition to_hkey (v : value) : res hkey :=
  match v with
  | VNone => Ok KNone
  | VBool b => Ok (KInt (if b then 1 else 0))
  | VInt z => Ok (KInt z)
  | VStr s => Ok (KStr s)
  | VList _ | VDict _ => Raise TypeError
  end.

#[global] Instance hkey_eq_dec : EqDecision hkey.
Proof. solve_decision. Defined.

#[global] Instance hkey_countable : Countable hkey :=
  inj_countable'
    (λ k, match k with
          | KNone => inl ()
          | KInt z => inr (inl z)
          | KStr s => inr (inr s)
          end)
    (λ x, match x with
          | inl _ => KNone
          | inr (inl z) => KInt z
          | inr (inr s) => KStr s
          end)
    (λ k, match k with
          | KNone => eq_refl
          | KInt _ => eq_refl
          | KStr _ => eq_refl
          end).

End Py.

(* ================================================================== *)
(** * json.dumps *)
(* ================================================================== *)

Module Json.
Import Py.

Definition hex_digit (n : N) : ascii :=
  match n with
  | 0 => "0" | 1 => "1" | 2 => "2" | 3 => "3" | 4 => "4" | 5 => "5"
  | 6 => "6" | 7 => "7" | 8 => "8" | 9 => "9" | 10 => "a" | 11 => "b"
  | 12 => "c" | 13 => "d" | 14 => "e" | _ => "f"
  end%char%N.

(** [\u00XX] for a code point below 256. *)
Definition u_escape (n : N) : string :=
  "\u00" +:+ String (hex_digit (n / 16)) (String (hex_digit (n mod 16)) "").

(** One character inside a JSON string.  The quote, the backslash and
    the control characters are always escaped; with [ensure_ascii]
    everything outside [' '..'~'] is. *)
Definition escape_char (ensure_ascii : bool) (c : ascii) : string :=
  let n := N_of_ascii c in
  if (n =? 34)%N then "\" +:+ dq
  else if (n =? 92)%N then "\\"
  else if (n =? 10)%N then "\n"
  else if (n =? 13)%N then "\r"
  else if (n =? 9)%N then "\t"
  else if (n =? 8)%N then "\b"
  else if (n =? 12)%N then "\f"
  else if (n <? 32)%N then u_escape n
  else if ensure_ascii && (126 <? n)%N then u_escape n
  else String c "".

Fixpoint escape (ensure_ascii : bool) (s : string) : string :=
  match s with
  | EmptyString => ""
  | String c s' => escape_char ensure_ascii c +:+ escape ensure_ascii s'
  end.

Definition quote (ensure_ascii : bool) (s : string) : string :=
  dq +:+ escape ensure_ascii s +:+ dq.

(** [json.dumps(v, ensure_ascii=...)] with the default separators. *)
Fixpoint dumps (ensure_ascii : bool) (v : value) : string :=
  match v with
  | VNone => "null"
  | VBool b => if b then "true" else "false"
  | VInt z => pretty z
  | VStr s => quote ensure_ascii s
  | VList l => "[" +:+ join ", " (map (dumps ensure_ascii) l) +:+ "]"
  | VDict d =>
      "{" +:+
      join ", " (map (λ kv, quote ensure_ascii kv.1 +:+ ": "
                            +:+ dumps ensure_ascii kv.2) d)
      +:+ "}"
  end.

End Json.

(* ================================================================== *)
(** * unit_test.py *)
(* ================================================================== *)

Module UnitTest.
Import Py.

(** ** load_jsonl *)

(** [enumerate(l, start)]. *)
Definition enumerate {A} (start : nat) (l : list A) : list (nat * A) :=
  zip (seq start (length l)) l.

Section Loading.

(** [json.loads] on one line; [None] stands for [JSONDecodeError]. *)
Variable json_loads : string → option value.

(** One turn of the loop of [load_jsonl].  The state is the list [items]
    and the line numbers printed as skipped so far. *)
Definition load_jsonl_step (acc : list value * list nat) (x : nat * string)
  : list value * list nat :=
  let line := strip x.2 in
  if String.eqb line "" then acc
  else match json_loads line with
       | Some item => (acc.1 ++ [item], acc.2)
       | None => (acc.1, acc.2 ++ [x.1])
       end.

(** [load_jsonl(path)], on the lines the file at [path] yields.  Returns
    [items] and the numbers of the lines reported as skipped. *)
Definition load_jsonl (lines : list string) : list value * list nat :=
  foldl load_jsonl_step ([], []) (enumerate 1 lines).

End Loading.

(** ** The synthesized test code *)

(** The name of test number [i]. *)
Definition method_name (i : nat) : string := "test_case_" +:+ pretty i.

(** The text appended for test number [i], given the two JSON literals. *)
Definition test_method (i : nat) (input_str expected_output : string) : string :=
  nl +:+
  "            def " +:+ method_name i +:+ "(self):" +:+ nl +:+
  "                input_str = " +:+ input_str +:+ nl +:+
  "                expected = " +:+ expected_output +:+ nl +:+
  "                input_lines = input_str.strip().split(" +:+ dq +:+ "\n"
    +:+ dq +:+ ")" +:+ nl +:+
  "                result = solve(input_lines)" +:+ nl +:+
  "                self.assertEqual(str(result).strip(), expected.strip(), f"
    +:+ dq +:+ "Output mismatch: {result} != {expected}" +:+ dq +:+ ")" +:+ nl +:+
  "        ".

(** The loop over [enumerate(public_tests)], from index [i] on.
    [case.get] needs [case] to be a dict. *)
Fixpoint test_methods_from (i : nat) (cases : list value) : res (list string) :=
  match cases with
  | [] => Ok []
  | case :: rest =>
      res_bind (as_dict case) (λ c,
        let input_str := Json.dumps true (get "input" (VStr "") c) in
        let expected_output := Json.dumps true (get "output" (VStr "") c) in
        res_bind (test_methods_from (S i) rest) (λ ms,
          Ok (test_method i input_str expected_output :: ms)))
  end.

Definition test_methods (cases : list value) : res (list string) :=
  test_methods_from 0 cases.

Definition class_header : string := "class TestDataclass(unittest.TestCase):".

Definition test_code (methods : list string) : string :=
  nl +:+ "import unittest" +:+ nl +:+ nl +:+
  class_header +:+ nl +:+ concat methods +:+ nl.

Definition full_code (generated_solution : string) (methods : list string)
  : string :=
  generated_solution +:+ nl +:+ nl +:+ test_code methods.

(** What the body of [test_case_i] does, as a function of the entry
    point.  [solve] is given the input lines and yields [str(result)],
    or raises.  Here the two literals are strs. *)
Inductive verdict := Pass | Fail | Error.

Definition test_case (solve : list string → option string)
    (input_str expected : string) : verdict :=
  let input_lines := split nl_char (strip input_str) in
  match solve input_lines with
  | Some result =>
      if String.eqb (strip result) (strip expected) then Pass else Fail
  | None => Error
  end.

(** ** The child process *)

(** What lines 30 to 35 of [_worker] amount to in the child: [exec] of
    the code, then the loader and the runner.  Times are counted from
    the start of the child. *)
Inductive py_run :=
| RunForever
    (* [exec] or a test does not return *)
| RunGone (t : N)
    (* at [t] the child is gone without an [Exception] reaching
       [_worker]: [SystemExit], [os._exit], a fatal signal *)
| RunRaises (t : N) (traceback : string)
    (* at [t] an [Exception] reaches the handler of [_worker] *)
| RunFinished (t : N) (verdicts : list verdict) (out err : string).
    (* at [t] the runner has returned; [out] and [err] are what the two
       [StringIO] buffers hold *)

(** What the script takes from outside. *)
Record platform := {
  (* the interpreter on code that compiles *)
  run : string → py_run;
  (* the interpreter on code that [compile] refuses: when the
     [SyntaxError] is caught, and [traceback.format_exc()] *)
  refuse : string → N * string;
  (* [str(uuid.uuid4())], by number of the call *)
  uuid4 : nat → string;
  (* how long [terminate()] and the [join()] after it take *)
  kill_delay : N;
}.

(** A [class] statement must have a body: a source text that stops after
    the header and blank lines is refused by [compile], with
    [IndentationError: expected an indented block]. *)
Definition open_class_at_eof (code : string) : bool :=
  endswith code (nl +:+ class_header +:+ nl +:+ nl).

Definition interpret (pf : platform) (code : string) : py_run :=
  if open_class_at_eof code
  then RunRaises (refuse pf code).1 (refuse pf code).2
  else run pf code.

(** [result.wasSuccessful()]: no failure and no error. *)
Definition was_successful (verdicts : list verdict) : bool :=
  forallb (λ v, match v with Pass => true | _ => false end) verdicts.

(** What the supervisor can see of a child: when it exits by itself, if
    ever, and the one message it has sent by then, if any. *)
Record child := {
  exits_after : option N;
  message : option dict;
}.

(** [_worker(code, conn)]. *)
Definition _worker (pf : platform) (code : string) : child :=
  match interpret pf code with
  | RunForever => {| exits_after := None; message := None |}
  | RunGone t => {| exits_after := Some t; message := None |}
  | RunRaises t traceback =>
      {| exits_after := Some t;
         message := Some (mk [("category", VStr "execution_error");
                              ("error", VStr traceback)]) |}
  | RunFinished t verdicts out err =>
      if was_successful verdicts then
        {| exits_after := Some t;
           message := Some (mk [("category", VStr "success");
                                ("stdout", VStr out)]) |}
      else
        {| exits_after := Some t;
           message := Some (mk [("category", VStr "test_failure");
                                ("stdout", VStr out);
                                ("error", VStr (if String.eqb err ""
                                                then "Test failed" else err))]) |}
  end.

(** ** Processes, the pipe and the clock *)

Inductive pstate :=
| NotStarted
| Running
| Zombie      (* dead, not yet waited for *)
| Reaped.     (* dead and waited for *)

Inductive event :=
| EStart (code : string)
| EJoin (timeout : option Z)
| EIsAlive
| ETerminate
| EPoll
| ERecv.

Record world := {
  now : N;                 (* wall clock *)
  events : list event;     (* calls on the process and the pipe, oldest first *)
  proc : pstate;
  script : child;          (* what the started child is going to do *)
  inbox : option dict;     (* what [parent_conn] holds *)
  uuids : nat;             (* calls of [uuid4] so far *)
}.

Definition idle : child := {| exits_after := None; message := None |}.

Definition boot : world :=
  {| now := 0; events := []; proc := NotStarted; script := idle;
     inbox := None; uuids := 0 |}.

(** A call returns a value in a new world, raises, or never returns. *)
Inductive outcome (A : Type) :=
| Done (a : A) (w : world)
| Raised (e : exn)
| Blocked.
Arguments Done {A} a w.
Arguments Raised {A} e.
Arguments Blocked {A}.

Definition M (A : Type) : Type := world → outcome A.

#[global] Instance M_ret : MRet M := λ A a w, Done a w.
#[global] Instance M_bind : MBind M := λ A B f m w,
  match m w with
  | Done a w' => f a w'
  | Raised e => Raised e
  | Blocked => Blocked
  end.

Definition lift {A} (r : res A) : M A := λ w,
  match r with
  | Ok a => Done a w
  | Raise e => Raised e
  end.

Definition log (e : event) (w : world) : world :=
  {| now := now w; events := events w ++ [e]; proc := proc w;
     script := script w; inbox := inbox w; uuids := uuids w |}.

Definition fresh_uuid (pf : platform) : M string := λ w,
  Done (uuid4 pf (uuids w))
       {| now := now w; events := events w; proc := proc w;
          script := script w; inbox := inbox w; uuids := S (uuids w) |}.

(** [p = Process(target=_worker, ...); p.start()]. *)
Definition proc_start (c : child) (code : string) : M unit := λ w,
  let w := log (EStart code) w in
  Done () {| now := now w; events := events w; proc := Running;
             script := c; inbox := None; uuids := uuids w |}.

(** The child has exited by itself: it is waited for, and what it sent
    is in the pipe. *)
Definition reap (d : N) (w : world) : world :=
  {| now := now w + d; events := events w; proc := Reaped;
     script := script w; inbox := message (script w); uuids := uuids w |}.

Definition wait (d : N) (w : world) : world :=
  {| now := now w + d; events := events w; proc := proc w;
     script := script w; inbox := inbox w; uuids := uuids w |}.

(** The deadline of [join(timeout)], [timeout] in seconds. *)
Definition deadline (timeout : Z) : N := Z.to_N (1000 * timeout).

(** [p.join(timeout)] and [p.join()]. *)
Definition proc_join (timeout : option Z) : M unit := λ w,
  let w := log (EJoin timeout) w in
  match proc w, timeout with
  | Running, Some t =>
      match exits_after (script w) with
      | Some d => if (d <? deadline t)%N then Done () (reap d w)
                  else Done () (wait (deadline t) w)
      | None => Done () (wait (deadline t) w)
      end
  | Running, None =>
      match exits_after (script w) with
      | Some d => Done () (reap d w)
      | None => Blocked
      end
  | Zombie, _ =>
      Done () {| now := now w; events := events w; proc := Reaped;
                 script := script w; inbox := inbox w; uuids := uuids w |}
  | _, _ => Done () w
  end.

(** [p.is_alive()]. *)
Definition proc_is_alive : M bool := λ w,
  let w := log EIsAlive w in
  Done (match proc w with Running => true | _ => false end) w.

(** [p.terminate()]: a running child is killed. *)
Definition proc_terminate (pf : platform) : M unit := λ w,
  let w := log ETerminate w in
  match proc w with
  | Running =>
      Done () {| now := now w + kill_delay pf; events := events w;
                 proc := Zombie; script := script w; inbox := inbox w;
                 uuids := uuids w |}
  | _ => Done () w
  end.

(** [parent_conn.poll()] and [parent_conn.recv()]. *)
Definition conn_poll : M bool := λ w,
  let w := log EPoll w in
  Done (match inbox w with Some _ => true | None => false end) w.

Definition conn_recv : M dict := λ w,
  let w := log ERecv w in
  match inbox w with
  | Some msg =>
      Done msg {| now := now w; events := events w; proc := proc w;
                  script := script w; inbox := None; uuids := uuids w |}
  | None => Blocked
  end.

(** How many children have been started so far. *)
Definition is_start (e : event) : bool :=
  match e with
  | EStart _ => true
  | _ => false
  end.

Definition spawn_count (w : world) : nat :=
  length (List.filter is_start (events w)).

(** ** run_unittest *)

Definition run_unittest (pf : platform) (problem : value) (timeout : Z)
  : M value :=
  problem ← lift (as_dict problem);
  let generated_solution := get "generated_solution" (VStr "") problem in
  let public_tests := get "public_tests" (VList []) problem in
  let private_tests := get "private_tests" (VList []) problem in
  let problem_id := get "problem_id" VNone problem in
  fresh ← fresh_uuid pf;
  let solution_id := get "solution_id" (VStr fresh) problem in
  let complexity := get "complexity" VNone problem in
  let solution_code := get "solution_code" VNone problem in
  let dataclass_code := get "dataclass_code" VNone problem in
  code ← lift (as_str generated_solution);
  if String.eqb (strip code) "" then
    mret (VDict (mk [
      ("problem_id", problem_id);
      ("solution_id", solution_id);
      ("generated_solution", generated_solution);
      ("public_tests", public_tests);
      ("private_tests", private_tests);
      ("solution_code", solution_code);
      ("dataclass_code", dataclass_code);
      ("complexity", complexity);
      ("category", VStr "empty_code_extracted");
      ("error", VStr "No code provided in 'generated_solution'.");
      ("raw_llm_output", get "raw_llm_output" (VStr "") problem)]))
  else
    cases ← lift (iterate public_tests);
    methods ← lift (test_methods cases);
    let full_code := full_code code methods in
    _ ← proc_start (_worker pf full_code) full_code;
    _ ← proc_join (Some timeout);
    let result := mk [
      ("problem_id", problem_id);
      ("solution_id", solution_id);
      ("generated_solution", generated_solution);
      ("num_tests", VInt (Z.of_nat (length cases)));
      ("public_tests", public_tests);
      ("private_tests", private_tests);
      ("solution_code", solution_code);
      ("dataclass_code", dataclass_code);
      ("complexity", complexity)] in
    alive ← proc_is_alive;
    if (alive : bool) then
      _ ← proc_terminate pf;
      _ ← proc_join None;
      mret (VDict (update result [
        ("category", VStr "timeout");
        ("error", VStr ("Execution timed out after " +:+ pretty timeout
                        +:+ " seconds"))]))
    else
      ready ← conn_poll;
      if (ready : bool) then
        msg ← conn_recv;
        mret (VDict (update result msg))
      else
        mret (VDict (update result [
          ("category", VStr "no_response");
          ("error", VStr "No response received from subprocess")])).

End UnitTest.

(* ================================================================== *)
(** * codegenerate_parallel-Codecontest-2.py *)
(* ================================================================== *)

Module CodeGen.
Import Py.

(** An identity key [(problem_id, completion_index)] as a set member. *)
Definition key : Type := hkey * hkey.

(** A unit of work [(problem, i)]. *)
Definition job : Type := value * nat.

Section Dataset.

(** [json.loads] on one line; [None] stands for [JSONDecodeError]. *)
Variable json_loads : string → option value.

(** The loop of [load_dataset] from line number [line_num] on, with the
    set [seen_ids] and the list [problems] built so far. *)
Fixpoint load_dataset_from (line_num : nat) (seen_ids : gset hkey)
    (problems : list value) (lines : list string) : res (list value) :=
  match lines with
  | [] => Ok problems
  | line :: rest =>
      let line := strip line in
      if String.eqb line "" then
        load_dataset_from (S line_num) seen_ids problems rest
      else
        match json_loads line with
        | None => Raise JSONDecodeError
        | Some problem =>
            res_bind (as_dict problem) (λ d,
              let pid := get "problem_id" VNone d in
              if negb (truthy pid) then
                Raise (ValueError ("Missing 'problem_id' at line "
                                   +:+ pretty line_num))
              else
                res_bind (to_hkey pid) (λ k,
                  if bool_decide (k ∈ seen_ids) then
                    load_dataset_from (S line_num) seen_ids problems rest
                  else
                    load_dataset_from (S line_num) ({[ k ]} ∪ seen_ids)
                                      (problems ++ [problem]) rest))
        end
  end.

(** [load_dataset(path)], on the lines the file at [path] yields. *)
Definition load_dataset (lines : list string) : res (list value) :=
  load_dataset_from 0 ∅ [] lines.

(** ** The resume ledger *)

(** The body of the [try] at lines 173 to 175, on one line of the prior
    output: the key it adds, or [None] when an exception makes the loop
    go on to the next line. *)
Definition ledger_key (line : string) : option key :=
  match json_loads line with
  | Some (VDict data) =>
      match lookup "problem_id" data with
      | Some pid =>
          match to_hkey pid,
                to_hkey (get "completion_index" (VInt 0) data) with
          | Ok k, Ok i => Some (k, i)
          | _, _ => None
          end
      | None => None
      end
  | _ => None
  end.

Definition ledger_step (completed : gset key) (line : string) : gset key :=
  match ledger_key line with
  | Some k => {[ k ]} ∪ completed
  | None => completed
  end.

(** [completed_problem_keys], lines 167 to 177.  [output] is the content
    of the output file, [None] when it does not exist. *)
Definition resume_ledger (output : option string) : gset key :=
  match output with
  | Some content => foldl ledger_step ∅ (readlines content)
  | None => ∅
  end.

End Dataset.

(** ** The job list *)

(** The jobs of one problem, lines 254 to 256.  The condition is only
    evaluated when [range] is not empty. *)
Definition jobs_of_problem (completed : gset key)
    (completions_per_problem : Z) (problem : value) : res (list job) :=
  match Z.to_nat completions_per_problem with
  | O => Ok []
  | n =>
      res_bind (as_dict problem) (λ d,
        res_bind (to_hkey (get "problem_id" VNone d)) (λ k,
          Ok (map (λ i, (problem, i))
                  (filter (λ i : nat, (k, KInt (Z.of_nat i)) ∉ completed)
                          (seq 0 n)))))
  end.

(** [jobs], lines 252 to 257. *)
Fixpoint jobs (completed : gset key) (completions_per_problem : Z)
    (problems : list value) : res (list job) :=
  match problems with
  | [] => Ok []
  | problem :: rest =>
      res_bind (jobs_of_problem completed completions_per_problem problem)
        (λ js, res_bind (jobs completed completions_per_problem rest)
          (λ js', Ok (js ++ js')))
  end.

(** ** create_completion *)

(** What a call to the model-serving backend does: it returns a response
    whose content field is [content], or it raises. *)
Inductive reply :=
| Answer (content : value)
| Failure (msg : string).

(** The two kinds of client, each with its call for the current model
    and temperature. *)
Inductive client :=
| OllamaClient (chat : value → reply)
| OpenAIClient (create : value → reply).

(** [create_completion(client, model, messages, temperature)].  Each
    branch has its own [try]: an exception of the call, or of [.strip()]
    on a content that is not a str, is printed and gives [""]. *)
Definition create_completion (c : client) (messages : value) : string :=
  match c with
  | OllamaClient chat =>
      match chat messages with
      | Answer (VStr content) => strip content
      | Answer _ => ""
      | Failure _ => ""
      end
  | OpenAIClient create =>
      match create messages with
      | Answer (VStr content) => strip content
      | Answer _ => ""
      | Failure _ => ""
      end
  end.

(** ** process_one_completion *)

Definition try_except {A} (body : res A) (handler : exn → res A) : res A :=
  match body with
  | Ok a => Ok a
  | Raise e => handler e
  end.

Definition system_prompt : string :=
  "You are a highly skilled competitive programmer. Your task is to write ONLY the complete Python code for a function named `solve`."
  +:+ nl +:+ nl +:+
  "### Function Requirements:" +:+ nl +:+
  "- The function signature must be: `def solve(input_lines: list[str]) -> str`"
  +:+ nl +:+
  "- It will receive input as a list of strings (`input_lines`)." +:+ nl +:+
  "- Return the final output as a string (not using print)." +:+ nl +:+
  "- Match the exact expected format." +:+ nl +:+ nl +:+
  "### Code Block Format:" +:+ nl +:+
  "- Return your solution enclosed in triple backticks like:" +:+ nl +:+
  "```python" +:+ nl +:+ "<your_code_here>" +:+ nl +:+ "```".

Section Task.

(** [strip_examples] and [extract_code_block] on a str: regular
    expression searches, total on strs. *)
Variable strip_examples_str : string → string.
Variable extract_code_block : string → string.
(** [str(e)]. *)
Variable describe : exn → string.

Variable withoutexemples : bool.
Variable the_client : client.
Variable completed_problem_keys : gset key.

(** [strip_examples(description)]: [re.search] wants a str. *)
Definition strip_examples (description : value) : res string :=
  match description with
  | VStr s => Ok (strip_examples_str s)
  | _ => Raise TypeError
  end.

(** [problem.get("tests", {}).get(name, [])]. *)
Definition tests_field (problem : dict) (name : string) : res value :=
  res_bind (as_dict (get "tests" (VDict []) problem))
    (λ tests, Ok (get name (VList []) tests)).

(** [process_one_completion(problem, i)] up to the [with lock:].
    [uuid] is what [str(uuid.uuid4())] gives in this call.  The result
    is the [info] to append, or [None] after the early [return]. *)
Definition process_one_completion (uuid : string) (problem : value) (i : nat)
  : res (option dict) :=
  res_bind (as_dict problem) (λ p,
    let problem_id := get "problem_id" VNone p in
    let description := get "description" (VStr "") p in
    res_bind (if withoutexemples
              then res_bind (strip_examples description) (λ s, Ok (VStr s))
              else Ok description) (λ problem_description,
      res_bind (to_hkey problem_id) (λ k,
        if bool_decide ((k, KInt (Z.of_nat i)) ∈ completed_problem_keys)
        then Ok None
        else
          res_bind
            (try_except
               (res_bind (strip_examples description) (λ stripped,
                  let messages := VList [
                    VDict (mk [("role", VStr "system");
                               ("content", VStr system_prompt)]);
                    VDict (mk [("role", VStr "user");
                               ("content", VStr (
                                  "Here is the problem statement:" +:+ nl +:+ nl
                                  +:+ strip stripped +:+ nl +:+ nl +:+
                                  "Write the correct implementation of `solve` based on this description."))])] in
                  let raw_llm_output := create_completion the_client messages in
                  let generated_solution_code :=
                    extract_code_block raw_llm_output in
                  let solution_id := uuid in
                  res_bind (tests_field p "public_tests") (λ public_tests,
                    res_bind (tests_field p "private_tests") (λ private_tests,
                      Ok (mk [
                        ("problem_id", problem_id);
                        ("solution_id", VStr solution_id);
                        ("completion_index", VInt (Z.of_nat i));
                        ("description", problem_description);
                        ("generated_solution", VStr generated_solution_code);
                        ("difficulty", get "difficulty" VNone p);
                        ("solutions", get "solutions" VNone p);
                        ("generated_tests", get "generated_tests" VNone p);
                        ("public_tests", public_tests);
                        ("private_tests", private_tests);
                        ("raw_llm_output", VStr raw_llm_output)])))))
               (λ e,
                  (* nothing is bound yet when [strip_examples] raises, and
                     when a later line raises this handler raises again *)
                  res_bind (tests_field p "public_tests") (λ public_tests,
                    res_bind (tests_field p "private_tests") (λ private_tests,
                      Ok (mk [
                        ("problem_id", problem_id);
                        ("solution_id", VStr uuid);
                        ("completion_index", VInt (Z.of_nat i));
                        ("description", problem_description);
                        ("error_category", VStr "api_call_failure");
                        ("error_message", VStr (describe e));
                        ("generated_solution", VStr "");
                        ("raw_llm_output", VStr "");
                        ("difficulty", get "difficulty" VNone p);
                        ("solutions", get "solutions" VNone p);
                        ("generated_tests", get "generated_tests" VNone p);
                        ("public_tests", public_tests);
                        ("private_tests", private_tests)])))))
            (λ info, Ok (Some info))))).

End Task.

(** ** The result sink under the lock *)

(** [json.dumps(info, ensure_ascii=False) + "\n"]. *)
Definition record_line (info : dict) : string :=
  Json.dumps false (VDict info) +:+ nl.

(** A worker thread from the [with lock:] on. *)
Inductive thread :=
| Ready (line : string)       (* has its line, waits for the lock *)
| Writing (rest : string)     (* holds the lock, the file is open for
                                 appending, [rest] is not yet written *)
| Finished.

#[global] Instance thread_eq_dec : EqDecision thread.
Proof. solve_decision. Defined.

(** The thread of a task: a task that has returned early or raised
    appends nothing. *)
Definition thread_of (r : res (option dict)) : thread :=
  match r with
  | Ok (Some info) => Ready (record_line info)
  | _ => Finished
  end.

Record pool := {
  file : string;            (* the output file *)
  lock : bool;              (* [lock] is held *)
  threads : list thread;
}.

(** One step of one thread.  The characters of a line reach the file
    one at a time. *)
Inductive step : pool → pool → Prop :=
| step_acquire p i line :
    threads p !! i = Some (Ready line) →
    lock p = false →
    step p {| file := file p; lock := true;
              threads := <[i := Writing line]> (threads p) |}
| step_write p i c rest :
    threads p !! i = Some (Writing (String c rest)) →
    step p {| file := file p +:+ String c ""; lock := lock p;
              threads := <[i := Writing rest]> (threads p) |}
| step_release p i :
    threads p !! i = Some (Writing "") →
    step p {| file := file p; lock := false;
              threads := <[i := Finished]> (threads p) |}.

(** The executor just after [executor.map] has submitted the tasks. *)
Definition start (output : string) (ts : list thread) : pool :=
  {| file := output; lock := false; threads := ts |}.

(** All threads are through. *)
Definition all_finished (p : pool) : Prop :=
  Forall (λ t, t = Finished) (threads p).

(** No thread is inside its [with lock:] block. *)
Definition quiescent (p : pool) : Prop :=
  Forall (λ t, ∀ rest, t ≠ Writing rest) (threads p).

(** ** main, for one model and one temperature *)

(** [problems[:int(max_problems)]] when [max_problems] is given. *)
Definition limit (max_problems : option Z) (problems : list value)
  : list value :=
  match max_problems with
  | None => problems
  | Some m =>
      if (0 <=? m)%Z then take (Z.to_nat m) problems
      else take (length problems - Z.to_nat (- m)) problems
  end.

Section Batch.

Variable json_loads : string → option value.
Variable strip_examples_str : string → string.
Variable extract_code_block : string → string.
Variable describe : exn → string.
Variable withoutexemples : bool.
Variable the_client : client.
(** What [str(uuid.uuid4())] gives in the task of [(problem, i)]. *)
Variable uuid_of : value → nat → string.
Variable completions_per_problem : Z.

(** The task the executor runs for one job. *)
Definition task (completed : gset key) (j : job) : res (option dict) :=
  process_one_completion strip_examples_str extract_code_block describe
    withoutexemples the_client completed (uuid_of j.1 j.2) j.1 j.2.

(** Lines 167 to 261 up to the moment [executor.map] has submitted the
    tasks: the ledger is read from the output file, the jobs are listed,
    and each job becomes a thread.  [output] is the content of the
    output file, [None] when it does not exist yet. *)
Definition dispatch (output : option string) (problems : list value)
  : res pool :=
  let completed := resume_ledger json_loads output in
  res_bind (jobs completed completions_per_problem problems) (λ js,
    Ok (start (default "" output)
              (map (λ j, thread_of (task completed j)) js))).

End Batch.

End CodeGen.

(* ================================================================== *)
(** * Notions of the specification *)
(* ================================================================== *)

Module Spec.
Import Py UnitTest.

(** ** Input lines *)

(** What a line of an input file holds: the record of a well-formed
    line, [None] for a blank or a malformed one. *)
Definition parsed (json_loads : string → option value) (line : string)
  : option value :=
  if String.eqb (strip line) "" then None else json_loads (strip line).

(** A malformed line: not blank, and not JSON. *)
Definition malformed (json_loads : string → option value) (line : string)
  : bool :=
  negb (String.eqb (strip line) "") &&
  match json_loads (strip line) with
  | Some _ => false
  | None => true
  end.

(** ** Identity keys *)

(** The set member a problem is known by. *)
Definition problem_key (problem : value) : res hkey :=
  res_bind (as_dict problem) (λ d, to_hkey (get "problem_id" VNone d)).

(** The identity key of a job. *)
Definition job_key (j : CodeGen.job) : option CodeGen.key :=
  match problem_key j.1 with
  | Ok k => Some (k, KInt (Z.of_nat j.2))
  | Raise _ => None
  end.

(** The key of the job is not in the ledger. *)
Definition fresh (completed : gset CodeGen.key) (j : CodeGen.job) : bool :=
  match job_key j with
  | Some k => bool_decide (k ∉ completed)
  | None => true
  end.

(** Every unit of work of a batch. *)
Definition all_jobs (completions_per_problem : Z) (problems : list value)
  : list CodeGen.job :=
  problems ≫= λ problem,
    map (λ i, (problem, i)) (seq 0 (Z.to_nat completions_per_problem)).

(** The problems have identity keys, and no two have the same. *)
Definition distinct_ids (problems : list value) : Prop :=
  ∃ ks, Forall2 (λ p k, problem_key p = Ok k) problems ks ∧ NoDup ks.

(** The line a finished task leaves in the output, if any. *)
Definition line_of (r : res (option dict)) : option string :=
  match r with
  | Ok (Some info) => Some (CodeGen.record_line info)
  | _ => None
  end.

(** The line [l] has no key in the ledger, [lk] being the key a line
    is read as. *)
Definition unrecorded `{Countable K} (lk : string → option K)
    (ledger : gset K) (l : string) : bool :=
  match lk l with
  | Some k => bool_decide (k ∉ ledger)
  | None => true
  end.

(** ** The result sink *)

(** The line a thread has still to bring into the file, when [w] is what
    the thread inside the lock has written so far. *)
Definition todo (w : string) (t : CodeGen.thread) : option string :=
  match t with
  | CodeGen.Ready line => Some line
  | CodeGen.Writing rest => Some (w +:+ rest)
  | CodeGen.Finished => None
  end.

Definition is_writing (t : CodeGen.thread) : bool :=
  match t with
  | CodeGen.Writing _ => true
  | _ => false
  end.

(** The invariant of the sink.  [out] is the file at the start and
    [lines] are the lines the threads had at the start; [done] are the
    lines of the threads that are through, in the order of their release,
    and [w] is what the thread inside the lock has written. *)
Definition sink_inv (out : string) (lines : list string) (p : CodeGen.pool)
    (done : list string) (w : string) : Prop :=
  CodeGen.file p = out +:+ concat done +:+ w ∧
  done ++ omap (todo w) (CodeGen.threads p) ≡ₚ lines ∧
  (CodeGen.lock p = false →
   w = "" ∧ Forall (λ t, is_writing t = false) (CodeGen.threads p)) ∧
  (CodeGen.lock p = true →
   ∃ i rest, CodeGen.threads p !! i = Some (CodeGen.Writing rest) ∧
     ∀ k t, k ≠ i → CodeGen.threads p !! k = Some t → is_writing t = false).

(** What a thread has still to do: take the lock, write its characters,
    give the lock back. *)
Definition work (t : CodeGen.thread) : nat :=
  match t with
  | CodeGen.Ready line => 2 + String.length line
  | CodeGen.Writing rest => 1 + String.length rest
  | CodeGen.Finished => 0
  end.

(** ** The model-serving backend *)

(** The call a client makes to the backend. *)
Definition backend (c : CodeGen.client) : value → CodeGen.reply :=
  match c with
  | CodeGen.OllamaClient chat => chat
  | CodeGen.OpenAIClient create => create
  end.

(** ** The outcome taxonomy *)

Inductive tag :=
| EmptyCode
| Timeout
| NoResponse
| ExecutionError
| TestFailure
| Success.

(** The spelling of a tag in the [category] field. *)
Definition tag_name (t : tag) : string :=
  match t with
  | EmptyCode => "empty_code_extracted"
  | Timeout => "timeout"
  | NoResponse => "no_response"
  | ExecutionError => "execution_error"
  | TestFailure => "test_failure"
  | Success => "success"
  end.

(** The child is gone by itself before the deadline of [timeout]. *)
Definition in_time (timeout : Z) (r : py_run) : bool :=
  match r with
  | RunForever => false
  | RunGone t | RunRaises t _ | RunFinished t _ _ _ => (t <? deadline timeout)%N
  end.

(** The classifier table of the specification, for code that is not
    blank: by what the isolated context does. *)
Definition classifier (timeout : Z) (r : py_run) : tag :=
  if in_time timeout r then
    match r with
    | RunForever => Timeout
    | RunGone _ => NoResponse
    | RunRaises _ _ => ExecutionError
    | RunFinished _ verdicts _ _ =>
        if was_successful verdicts then Success else TestFailure
    end
  else Timeout.

(** The diagnostic payload that goes with a tag. *)
Definition payload (t : tag) (r : py_run) (record : dict) : Prop :=
  match t, r with
  | ExecutionError, RunRaises _ traceback =>
      lookup "error" record = Some (VStr traceback)
  | TestFailure, RunFinished _ _ out _ =>
      lookup "stdout" record = Some (VStr out) ∧
      ∃ text, lookup "error" record = Some (VStr text) ∧ text ≠ ""
  | Success, RunFinished _ _ out _ =>
      lookup "stdout" record = Some (VStr out)
  | _, _ => True
  end.

(** How many entries of a record are [category] entries. *)
Definition tags_in (record : dict) : nat :=
  length (filter (λ kv, kv.1 = "category") record).

End Spec.

(* ================================================================== *)
(** * Sample tasks and a sample platform *)
(* ================================================================== *)

Module Demo.
Import Py UnitTest CodeGen.

(** Two problems and the client, for a batch of one completion each. *)
Definition problem_p1 : value :=
  VDict [("problem_id", VStr "p1"); ("description", VStr "Add one.")].

Definition problem_p2 : value :=
  VDict [("problem_id", VStr "p2"); ("description", VStr "Add two.")].

Definition client : CodeGen.client :=
  OpenAIClient (λ _, Answer (VStr "def solve(lines): return 1")).

Definition uuid_of (problem : value) (i : nat) : string :=
  "00000000-0000-4000-8000-" +:+ pretty i.

Definition generate (j : job) : res (option dict) :=
  CodeGen.task (λ s, s) (λ s, s) (λ _, "error") false client uuid_of ∅ j.

Definition records : list value :=
  omap (λ j, match generate j with
             | Ok (Some info) => Some (VDict info)
             | _ => None
             end)
       [(problem_p1, 0); (problem_p2, 0)].

(** A JSON parser that knows the serialization of a few values. *)
Definition known : list value := [problem_p1; problem_p2] ++ records.

Definition loads (s : string) : option value :=
  List.find (λ v, String.eqb (Json.dumps false v) (strip s)) known.

Definition line_p1 : string := Json.dumps false problem_p1 +:+ nl.

Definition line_p2 : string := Json.dumps false problem_p2 +:+ nl.

(** Two records for the sink. *)
Definition two_records : list dict :=
  [[("problem_id", VStr "p1"); ("completion_index", VInt 0)];
   [("problem_id", VStr "p2"); ("completion_index", VInt 0)]].

Definition line_broken : string := "{not json" +:+ nl.

(** A platform that knows four programs by their first line. *)
Definition machine (kill : N) : platform := {|
  run code :=
    if String.prefix "while True: pass" code then RunForever
    else if String.prefix "import os; os._exit(0)" code then RunGone 30
    else if String.prefix "def solve(lines): return str(int(lines[0])+1)" code
    then RunFinished 120 [Pass] "test_case_0 ... ok" ""
    else RunFinished 120 [Fail] "test_case_0 ... FAIL" "";
  refuse code :=
    (25%N, "IndentationError: expected an indented block after class definition");
  uuid4 n := "00000000-0000-4000-8000-" +:+ pretty n;
  kill_delay := kill;
|}.

Definition task (code : string) (tests : list value) : dict :=
  [("problem_id", VStr "p1"); ("solution_id", VStr "s1");
   ("generated_solution", VStr code); ("public_tests", VList tests)].

Definition case (input output : string) : value :=
  VDict [("input", VStr input); ("output", VStr output)].

Definition increment_task : dict :=
  task "def solve(lines): return str(int(lines[0])+1)" [case "2" "3"].

Definition looping_task : dict := task "while True: pass" [case "2" "3"].

Definition blank_task : dict := task "   " [case "2" "3"].

Definition no_tests_task : dict :=
  task "def solve(lines): return str(int(lines[0])+1)" [].

End Demo.

(* ================================================================== *)
(** * Properties *)
(* ================================================================== *)

Import Py UnitTest CodeGen Spec.

Lemma append_nil_l (b : string) : "" +:+ b = b.
Proof. reflexivity. Qed.

Lemma append_cons (x : ascii) (a b : string) :
  String x a +:+ b = String x (a +:+ b).
Proof. reflexivity. Qed.

Lemma append_assoc (a b c : string) : (a +:+ b) +:+ c = a +:+ (b +:+ c).
Proof.
  induction a as [|x a IH]; [done|]. by rewrite !append_cons, IH.
Qed.

Lemma append_nil_r (a : string) : a +:+ "" = a.
Proof.
  induction a as [|x a IH]; [done|]. by rewrite append_cons, IH.
Qed.

Lemma lstrip_blank s : blank s = true → lstrip s = "".
Proof.
  induction s as [|c s IH]; simpl; [done|].
  intros [Hc Hs]%andb_prop. rewrite Hc. auto.
Qed.

Lemma rstrip_empty s : rstrip s = "" → blank s = true.
Proof.
  induction s as [|c s IH]; simpl; [done|].
  destruct (rstrip s) eqn:E; [|done].
  destruct (is_space c); [|done]. intros _. simpl. auto.
Qed.

Lemma lstrip_head s c s' : lstrip s = String c s' → is_space c = false.
Proof.
  induction s as [|a s IH]; simpl; [done|].
  destruct (is_space a) eqn:E; [done|]. by intros [= <- _].
Qed.

Lemma strip_empty_iff s : strip s = "" ↔ blank s = true.
Proof.
  unfold strip. split.
  - intros H. apply rstrip_empty in H.
    induction s as [|c s IH]; simpl in *; [done|].
    destruct (is_space c) eqn:E; simpl; [auto|].
    simpl in H. by rewrite E in H.
  - intros H. by rewrite lstrip_blank.
Qed.

Ltac exec_run_unittest :=
  unfold run_unittest, mbind, M_bind, lift, fresh_uuid, mret, M_ret,
    proc_start, proc_join, proc_is_alive, proc_terminate, conn_poll, conn_recv;
  simpl.

Lemma strip_nonblank code : blank code = false → (strip code =? "")%string = false.
Proof.
  intros Hb. apply String.eqb_neq. intros H%strip_empty_iff. congruence.
Qed.

Lemma tag_name_inj t t' : tag_name t' = tag_name t → t' = t.
Proof. by destruct t, t'. Qed.



(** C2.  A task whose generated solution is empty or all whitespace
    comes back tagged [empty_code_extracted], and the call does nothing
    to any process: no child is started. *)
Theorem blank_code_is_empty_code pf d code timeout w :
  get "generated_solution" (VStr "") d = VStr code →
  blank code = true →
  ∃ record w',
    run_unittest pf (VDict d) timeout w = Done (VDict record) w' ∧
    lookup "category" record = Some (VStr "empty_code_extracted") ∧
    events w' = events w ∧
    spawn_count w' = spawn_count w ∧
    proc w' = proc w.
Proof.
  intros Hgen Hblank. apply strip_empty_iff in Hblank.
  exec_run_unittest. rewrite Hgen. simpl. rewrite Hblank. simpl.
  by eexists _, _.
Qed.

(** C2 at a task whose code is three spaces. *)
Lemma blank_code_is_empty_code_witness :
  blank "   " = true ∧
  ∃ record w',
    run_unittest (Demo.machine 7) (VDict Demo.blank_task) 10 boot
      = Done (VDict record) w' ∧
    lookup "category" record = Some (VStr "empty_code_extracted") ∧
    spawn_count w' = 0.
Proof.
  split; [reflexivity|].
  destruct (blank_code_is_empty_code (Demo.machine 7) Demo.blank_task "   "
              10 boot eq_refl eq_refl)
    as (record & w' & Hrun & Hc & _ & Hn & _).
  by exists record, w'.
Defined.

(** The path on which the child is still there at the deadline. *)
Lemma run_unittest_late pf d code cases methods timeout w :
  get "generated_solution" (VStr "") d = VStr code →
  blank code = false →
  iterate (get "public_tests" (VList []) d) = Ok cases →
  test_methods cases = Ok methods →
  in_time timeout (interpret pf (full_code code methods)) = false →
  ∃ record w',
    run_unittest pf (VDict d) timeout w = Done (VDict record) w' ∧
    record = update
      (mk [("problem_id", get "problem_id" VNone d);
           ("solution_id", get "solution_id" (VStr (uuid4 pf (uuids w))) d);
           ("generated_solution", VStr code);
           ("num_tests", VInt (Z.of_nat (length cases)));
           ("public_tests", get "public_tests" (VList []) d);
           ("private_tests", get "private_tests" (VList []) d);
           ("solution_code", get "solution_code" VNone d);
           ("dataclass_code", get "dataclass_code" VNone d);
           ("complexity", get "complexity" VNone d)])
      [("category", VStr "timeout");
       ("error", VStr ("Execution timed out after " +:+ pretty timeout
                       +:+ " seconds"))] ∧
    events w' = events w ++
      [EStart (full_code code methods); EJoin (Some timeout); EIsAlive;
       ETerminate; EJoin None] ∧
    proc w' = Reaped ∧
    now w' = (now w + deadline timeout + kill_delay pf)%N.
Proof.
  intros Hgen Hblank Hit Hm Hlate.
  exec_run_unittest. rewrite Hgen. simpl.
  rewrite (strip_nonblank code Hblank), Hit, Hm.
  unfold _worker, in_time in *. simpl.
  destruct (interpret pf (full_code code methods)) as [|t|t tb|t vs out err];
    simpl in *; rewrite ?Hlate; try destruct (was_successful vs); simpl;
    rewrite ?Hlate; simpl; eexists _, _; repeat split;
    by rewrite <-?(assoc_L (++)).
Qed.






Lemma endswith_app s t : endswith (s +:+ t) t = true.
Proof.
  induction s as [|c s IH].
  - destruct t; simpl; by rewrite ?Ascii.eqb_refl, ?String.eqb_refl.
  - rewrite append_cons. simpl. rewrite IH. apply orb_true_r.
Qed.

(** With no test the class has no body, and [compile] refuses the code. *)
Lemma no_tests_open_class code : open_class_at_eof (full_code code []) = true.
Proof.
  unfold open_class_at_eof, full_code, test_code. simpl.
  replace (code +:+ nl +:+ nl +:+ nl +:+ "import unittest" +:+ nl +:+ nl +:+
           class_header +:+ nl +:+ "" +:+ nl)
    with ((code +:+ nl +:+ nl +:+ nl +:+ "import unittest" +:+ nl) +:+
          (nl +:+ class_header +:+ nl +:+ nl)).
  - apply endswith_app.
  - by rewrite !append_assoc.
Qed.

(** C10, what the code does.  With no public test the synthesized
    class has no body, [compile] refuses the combined code, and a task
    whose child reports before the deadline is tagged
    [execution_error], with [num_tests] 0; it is not tagged
    [success]. *)
Theorem no_tests_is_execution_error pf d code timeout w :
  get "generated_solution" (VStr "") d = VStr code →
  blank code = false →
  get "public_tests" (VList []) d = VList [] →
  ((refuse pf (full_code code [])).1 <? deadline timeout)%N = true →
  ∃ record w',
    run_unittest pf (VDict d) timeout w = Done (VDict record) w' ∧
    test_methods [] = Ok [] ∧
    lookup "num_tests" record = Some (VInt 0) ∧
    lookup "category" record = Some (VStr "execution_error") ∧
    lookup "error" record = Some (VStr (refuse pf (full_code code [])).2).
Proof.
  intros Hgen Hblank Htests Hquick.
  exec_run_unittest. rewrite Hgen. simpl.
  rewrite (strip_nonblank code Hblank), Htests. simpl.
  unfold _worker, interpret. rewrite no_tests_open_class. simpl.
  rewrite Hquick. simpl. by eexists _, _.
Qed.

(** C10 at a task with a correct solution and no public test. *)
Lemma no_tests_is_execution_error_witness :
  blank "def solve(lines): return str(int(lines[0])+1)" = false ∧
  ∃ record w',
    run_unittest (Demo.machine 7) (VDict Demo.no_tests_task) 10 boot
      = Done (VDict record) w' ∧
    lookup "category" record = Some (VStr "execution_error").
Proof.
  split; [reflexivity|].
  destruct (no_tests_is_execution_error (Demo.machine 7) Demo.no_tests_task
              _ 10 boot eq_refl eq_refl eq_refl eq_refl)
    as (record & w' & Hrun & _ & _ & Hc & _).
  by exists record, w'.
Defined.

Lemma method_name_inj i j : method_name i = method_name j → i = j.
Proof.
  unfold method_name. intros H.
  apply (String.app_inj "test_case_") in H. by apply (inj pretty) in H.
Qed.

Lemma test_methods_from_length i cases methods :
  test_methods_from i cases = Ok methods → length methods = length cases.
Proof.
  revert i methods. induction cases as [|case rest IH]; intros i methods; simpl.
  - by intros [= <-].
  - destruct (as_dict case) as [c|]; [|done]. simpl.
    destruct (test_methods_from (S i) rest) as [ms|] eqn:E; [|done]. simpl.
    intros [= <-]. simpl. f_equal. by eapply IH.
Qed.

Lemma test_methods_from_lookup i cases methods k t :
  test_methods_from i cases = Ok methods →
  cases !! k = Some (VDict t) →
  methods !! k =
    Some (test_method (i + k)
            (Json.dumps true (get "input" (VStr "") t))
            (Json.dumps true (get "output" (VStr "") t))).
Proof.
  revert i methods k. induction cases as [|case rest IH]; intros i methods k;
    simpl; [done|].
  destruct (as_dict case) as [c|] eqn:Hc; [|done]. simpl.
  destruct (test_methods_from (S i) rest) as [ms|] eqn:E; [|done]. simpl.
  intros [= <-]. destruct k as [|k]; simpl.
  - intros [= ->]. simpl in Hc. injection Hc as <-. by rewrite Nat.add_0_r.
  - intros Hk. rewrite (IH _ _ _ E Hk).
    by replace (S i + k) with (i + S k) by lia.
Qed.

Lemma test_methods_from_dicts i cases :
  Forall (λ c, ∃ t, c = VDict t) cases →
  ∃ methods, test_methods_from i cases = Ok methods.
Proof.
  intros H. revert i. induction H as [|case rest [t ->] _ IH]; intros i; simpl.
  - by eexists.
  - destruct (IH (S i)) as [ms ->]. by eexists.
Qed.

(** A task with code runs exactly one child, on [full_code]. *)
Lemma run_unittest_spawns_once pf d code cases methods timeout w :
  get "generated_solution" (VStr "") d = VStr code →
  blank code = false →
  iterate (get "public_tests" (VList []) d) = Ok cases →
  test_methods cases = Ok methods →
  ∃ v w' rest,
    run_unittest pf (VDict d) timeout w = Done v w' ∧
    events w' = events w ++ EStart (full_code code methods) :: rest ∧
    List.filter is_start rest = [].
Proof.
  intros Hgen Hblank Hit Hm.
  exec_run_unittest. rewrite Hgen. simpl.
  rewrite (strip_nonblank code Hblank), Hit, Hm.
  unfold _worker. simpl.
  destruct (interpret pf (full_code code methods)) as [|t|t tb|t vs out err];
    simpl; try destruct (was_successful vs); simpl;
    try destruct (t <? deadline timeout)%N; simpl;
    eexists _, _, _; (split; [reflexivity|]); simpl;
    rewrite <-?(assoc_L (++)); simpl; by split.
Qed.



Section Loaders.
Variable json_loads : string → option value.

Lemma enumerate_cons {A} n (x : A) l :
  enumerate n (x :: l) = (n, x) :: enumerate (S n) l.
Proof. reflexivity. Qed.

Lemma load_jsonl_fold acc n lines :
  foldl (load_jsonl_step json_loads) acc (enumerate n lines) =
    (acc.1 ++ omap (parsed json_loads) lines,
     acc.2 ++ (filter (λ x, malformed json_loads x.2 = true)
                      (enumerate n lines)).*1).
Proof.
  revert acc n. induction lines as [|line rest IH]; intros [items skipped] n.
  - simpl. by rewrite !app_nil_r.
  - rewrite enumerate_cons. simpl. rewrite IH. clear IH.
    destruct (malformed json_loads line) eqn:M.
    + rewrite filter_cons_True by done.
      unfold load_jsonl_step, parsed, malformed in *. simpl in *.
      destruct (String.eqb (strip line) ""); [done|].
      destruct (json_loads (strip line)); [done|]. simpl.
      by rewrite <-(assoc_L (++)).
    + rewrite filter_cons_False by (simpl; congruence).
      unfold load_jsonl_step, parsed, malformed in *. simpl in *.
      destruct (String.eqb (strip line) ""); [done|].
      destruct (json_loads (strip line)); [|done]. simpl.
      by rewrite <-(assoc_L (++)).
Qed.

Lemma load_dataset_from_malformed n seen problems lines :
  Exists (λ line, malformed json_loads line = true) lines →
  ∃ e, load_dataset_from json_loads n seen problems lines = Raise e.
Proof.
  intros H. revert n seen problems.
  induction H as [line rest Hbad|line rest _ IH]; intros n seen problems;
    simpl.
  - unfold malformed in Hbad. apply andb_prop in Hbad as [Hne Hnone].
    apply negb_true_iff in Hne. rewrite Hne.
    destruct (json_loads (strip line)); [done|by eexists].
  - destruct (String.eqb (strip line) ""); [apply IH|].
    destruct (json_loads (strip line)) as [problem|]; [|by eexists].
    destruct (as_dict problem) as [d|]; simpl; [|by eexists].
    destruct (truthy _); simpl; [|by eexists].
    destruct (to_hkey _) as [k|]; simpl; [|by eexists].
    destruct (bool_decide _); apply IH.
Qed.


End Loaders.



Section Faults.
Variable strip_examples_str : string → string.
Variable extract_code_block : string → string.
Variable describe : exn → string.

Lemma create_completion_failure c messages msg :
  backend c messages = Failure msg → create_completion c messages = "".
Proof. destruct c; simpl; by intros ->. Qed.

(** C8, what the code does.  When the call to the backend fails,
    [create_completion] gives [""] and the record that is written has
    no [error_category] and no [error_message]: it is an ordinary
    record with an empty [raw_llm_output]. *)
Theorem api_failure_is_not_tagged withoutexemples c completed uuid p i
    description k :
  (∀ messages, ∃ msg, backend c messages = Failure msg) →
  get "description" (VStr "") p = VStr description →
  to_hkey (get "problem_id" VNone p) = Ok k →
  (k, KInt (Z.of_nat i)) ∉ completed →
  lookup "tests" p = None →
  ∃ info,
    process_one_completion strip_examples_str extract_code_block describe
      withoutexemples c completed uuid (VDict p) i = Ok (Some info) ∧
    lookup "error_category" info = None ∧
    lookup "error_message" info = None ∧
    lookup "raw_llm_output" info = Some (VStr "") ∧
    lookup "generated_solution" info = Some (VStr (extract_code_block "")).
Proof.
  intros Hfail Hdesc Hk Hnew Htests.
  unfold process_one_completion, tests_field, get in *. simpl.
  rewrite Htests. simpl.
  destruct (lookup "description" p) as [dv|] eqn:Hd; simpl in Hdesc;
    [subst dv|injection Hdesc as <-]; simpl;
    destruct withoutexemples; simpl; rewrite Hk; simpl;
    rewrite bool_decide_eq_false_2 by done;
    match goal with
    | |- context [create_completion c ?m] =>
        destruct (Hfail m) as [msg Hm];
        rewrite (create_completion_failure c m msg Hm)
    end; by eexists.
Qed.

End Faults.

(** C8 at a client whose call raises a connection error. *)
Lemma api_failure_is_not_tagged_witness :
  ∃ info,
    process_one_completion (λ s, s) (λ s, s) (λ _, "error") false
      (OpenAIClient (λ _, Failure "Connection error.")) ∅ "u1"
      (VDict [("problem_id", VStr "p1"); ("description", VStr "Add one.")]) 0
      = Ok (Some info) ∧
    lookup "error_category" info = None.
Proof.
  destruct (api_failure_is_not_tagged (λ s, s) (λ s, s) (λ _, "error") false
              (OpenAIClient (λ _, Failure "Connection error.")) ∅ "u1"
              [("problem_id", VStr "p1"); ("description", VStr "Add one.")] 0
              "Add one." (KStr "p1"))
    as (info & Hrun & Hc & _); try done.
  { intros ?. by eexists. }
  by exists info.
Defined.

(** A fault outside the [try] leaves [process_one_completion]. *)
Lemma fault_outside_try_propagates :
  process_one_completion (λ s, s) (λ s, s) (λ _, "error") true
    (OpenAIClient (λ _, Answer (VStr "def solve(lines): return 1"))) ∅ "u1"
    (VDict [("problem_id", VStr "p1"); ("description", VNone)]) 0
    = Raise TypeError.
Proof. reflexivity. Qed.

(** The fault the handler does catch: a description that is not a str. *)
Lemma fault_inside_try_is_tagged :
  ∃ info,
    process_one_completion (λ s, s) (λ s, s) (λ _, "error") false
      (OpenAIClient (λ _, Answer (VStr "def solve(lines): return 1"))) ∅ "u1"
      (VDict [("problem_id", VStr "p1"); ("description", VNone)]) 0
      = Ok (Some info) ∧
    lookup "error_category" info = Some (VStr "api_call_failure").
Proof. by eexists. Qed.

(** ** json.dumps emits no control character *)

Lemma has_char_app c a b :
  has_char c (a +:+ b) = has_char c a || has_char c b.
Proof.
  induction a as [|x a IH]; [done|].
  rewrite append_cons. simpl. by rewrite IH, orb_assoc.
Qed.

Lemma printable_app a b :
  printable (a +:+ b) = printable a && printable b.
Proof.
  induction a as [|x a IH]; [done|].
  rewrite append_cons. simpl. by rewrite IH, andb_assoc.
Qed.

Lemma printable_has_char c s :
  printable s = true → (N_of_ascii c <? 32)%N = true → has_char c s = false.
Proof.
  intros Hs Hc. induction s as [|x s IH]; [done|]. simpl in *.
  apply andb_prop in Hs as [Hx Hs]. rewrite (IH Hs), orb_false_r.
  apply Ascii.eqb_neq. intros ->. apply N.leb_le in Hx. apply N.ltb_lt in Hc.
  lia.
Qed.

Lemma hex_digit_printable n : (32 <=? N_of_ascii (Json.hex_digit n))%N = true.
Proof.
  unfold Json.hex_digit.
  repeat match goal with
         | |- context [match ?x with _ => _ end] => destruct x
         end; reflexivity.
Qed.

Lemma u_escape_printable n : printable (Json.u_escape n) = true.
Proof.
  unfold Json.u_escape. rewrite printable_app. simpl.
  by rewrite !hex_digit_printable.
Qed.

Lemma escape_char_printable ea c : printable (Json.escape_char ea c) = true.
Proof.
  unfold Json.escape_char.
  repeat match goal with
         | |- context [if ?b then _ else _] => destruct b eqn:?
         end; try reflexivity; try apply u_escape_printable.
  all: simpl; rewrite andb_true_r; apply N.leb_le;
    match goal with H : (_ <? 32)%N = false |- _ => apply N.ltb_ge in H end;
    done.
Qed.

Lemma escape_printable ea s : printable (Json.escape ea s) = true.
Proof.
  induction s as [|c s IH]; [done|]. simpl.
  by rewrite printable_app, escape_char_printable, IH.
Qed.

Lemma quote_printable ea s : printable (Json.quote ea s) = true.
Proof.
  unfold Json.quote. by rewrite !printable_app, escape_printable.
Qed.

Lemma pretty_N_char_printable x :
  (32 <=? N_of_ascii (pretty_N_char x))%N = true.
Proof.
  unfold pretty_N_char.
  repeat match goal with
         | |- context [match ?x with _ => _ end] => destruct x
         end; reflexivity.
Qed.

Lemma pretty_N_go_printable x s :
  printable s = true → printable (pretty_N_go x s) = true.
Proof.
  revert s. induction (N.lt_wf_0 x) as [x _ IH]; intros s Hs.
  destruct (decide (x = 0)%N) as [->|Hx]; [by rewrite pretty_N_go_0|].
  rewrite pretty_N_go_step by lia. apply IH.
  - apply N.div_lt; lia.
  - simpl. by rewrite pretty_N_char_printable.
Qed.

Lemma pretty_N_printable (x : N) : printable (pretty x) = true.
Proof.
  unfold pretty, pretty_N. case_decide; [done|].
  by apply pretty_N_go_printable.
Qed.

Lemma pretty_Z_printable (z : Z) : printable (pretty z) = true.
Proof.
  destruct z as [|p|p]; [done|..].
  - apply (pretty_N_printable (N.pos p)).
  - unfold pretty, pretty_Z. rewrite printable_app. simpl.
    apply (pretty_N_printable (N.pos p)).
Qed.

Lemma join_printable sep l :
  printable sep = true → Forall (λ s, printable s = true) l →
  printable (join sep l) = true.
Proof.
  intros Hsep H. induction H as [|x l Hx Hl IH]; [done|]. simpl.
  destruct l as [|y l]; [done|].
  by rewrite !printable_app, Hx, Hsep, IH.
Qed.

(** Induction on values, through the lists they hold. *)
Lemma value_induction (P : value → Prop) :
  P VNone →
  (∀ b, P (VBool b)) →
  (∀ z, P (VInt z)) →
  (∀ s, P (VStr s)) →
  (∀ l, Forall P l → P (VList l)) →
  (∀ d, Forall (λ kv, P kv.2) d → P (VDict d)) →
  ∀ v, P v.
Proof.
  intros HN HB HI HS HL HD. fix IH 1. intros [|b|z|s|l|d].
  - exact HN.
  - exact (HB b).
  - exact (HI z).
  - exact (HS s).
  - apply HL. induction l as [|x l IHl]; constructor; [apply IH|exact IHl].
  - apply HD. induction d as [|[k x] d IHd]; constructor;
      [apply IH|exact IHd].
Qed.

Lemma dumps_printable ea v : printable (Json.dumps ea v) = true.
Proof.
  induction v as [|b|z|s|l IH|d IH] using value_induction; simpl.
  - done.
  - by destruct b.
  - apply pretty_Z_printable.
  - apply quote_printable.
  - rewrite !printable_app. simpl. rewrite andb_true_r.
    apply join_printable; [done|]. by apply Forall_map.
  - rewrite !printable_app. simpl. rewrite andb_true_r.
    apply join_printable; [done|]. apply Forall_map.
    eapply Forall_impl; [exact IH|]. intros [k x] Hx.
    change (printable (Json.quote ea k +:+ ": " +:+ Json.dumps ea x) = true).
    change (printable (Json.dumps ea x) = true) in Hx.
    by rewrite !printable_app, quote_printable, Hx.
Qed.

(** ** Reading back what the sink wrote *)

Lemma readlines_line body rest :
  has_char nl_char body = false →
  has_char cr_char body = false →
  readlines ((body +:+ nl) +:+ rest) = (body +:+ nl) :: readlines rest.
Proof.
  intros Hn Hc. induction body as [|c body IH]; [done|].
  simpl in Hn, Hc. apply orb_false_elim in Hn as [Hn1 Hn2].
  apply orb_false_elim in Hc as [Hc1 Hc2].
  rewrite !append_cons. simpl. rewrite Hn1, Hc1. by rewrite IH.
Qed.

Lemma record_line_read info rest :
  readlines (record_line info +:+ rest) = record_line info :: readlines rest.
Proof.
  apply readlines_line; apply printable_has_char;
    by auto using dumps_printable.
Qed.

Lemma record_lines_read infos :
  readlines (concat (map record_line infos)) = map record_line infos.
Proof.
  induction infos as [|info infos IH]; [done|].
  change (readlines (record_line info +:+ concat (map record_line infos)) =
          record_line info :: map record_line infos).
  by rewrite record_line_read, IH.
Qed.

(** ** The sink under interleaving *)

Lemma concat_app l1 l2 : concat (l1 ++ l2) = concat l1 +:+ concat l2.
Proof.
  induction l1 as [|x l1 IH]; [done|]. simpl.
  by rewrite IH, append_assoc.
Qed.

Lemma todo_idle w w' t : is_writing t = false → todo w t = todo w' t.
Proof. by destruct t. Qed.

Lemma omap_pointwise {A B} (f g : A → option B) l l' :
  Forall2 (λ x y, f x = g y) l l' → omap f l = omap g l'.
Proof.
  induction 1 as [|x y l l' Hxy _ IH]; [done|]. cbn. rewrite Hxy.
  by rewrite IH.
Qed.

Lemma Forall2_insert_same {A} (R : A → A → Prop) l i y :
  (∀ k x, l !! k = Some x → k ≠ i → R x x) →
  (∀ x, l !! i = Some x → R x y) →
  Forall2 R l (<[i:=y]> l).
Proof.
  revert i. induction l as [|x l IH]; intros i Hother Hi; [constructor|].
  destruct i as [|i]; simpl.
  - constructor; [by apply Hi|].
    apply Forall2_same_length_lookup_2; [done|].
    intros k a b Ha Hb. rewrite Ha in Hb. injection Hb as <-.
    by apply (Hother (S k)).
  - constructor; [by apply (Hother 0)|].
    apply IH.
    + intros k a Ha Hk. apply (Hother (S k)); [done|lia].
    + intros a Ha. by apply Hi.
Qed.

Lemma quiescent_idle ts :
  Forall (λ t, ∀ rest, t ≠ Writing rest) ts ↔
  Forall (λ t, is_writing t = false) ts.
Proof.
  apply Forall_iff. intros [l|r|]; simpl; split; try done.
  - intros H. by destruct (H r).
Qed.

Lemma sink_inv_start out ts :
  quiescent (start out ts) →
  sink_inv out (omap (todo "") ts) (start out ts) [] "".
Proof.
  intros Hq. apply quiescent_idle in Hq.
  repeat split; simpl; try done. by rewrite append_nil_r.
Qed.

Lemma sink_inv_step out lines p p' done w :
  sink_inv out lines p done w → step p p' →
  ∃ done' w', sink_inv out lines p' done' w'.
Proof.
  intros (Hfile & Hperm & Hfree & Hheld) Hstep.
  destruct Hstep as [p i line Hi Hlock|p i c rest Hi|p i Hi].
  - (* acquire *)
    destruct (Hfree Hlock) as [-> Hidle].
    exists done, "". repeat split; simpl; try done.
    + rewrite <-Hperm. f_equiv. apply reflexive_eq. symmetry.
      apply omap_pointwise.
      apply Forall2_insert_same; [done|].
      intros x Hx. rewrite Hi in Hx. by injection Hx as <-.
    + intros _. exists i, line. split.
      * apply list_lookup_insert_eq. by eapply lookup_lt_Some.
      * intros k t Hk Ht. rewrite list_lookup_insert_ne in Ht by done.
        exact (Forall_lookup_1 _ _ _ _ Hidle Ht).
  - (* write *)
    destruct (lock p) eqn:Hlock.
    2:{ destruct (Hfree eq_refl) as [_ Hidle].
        by pose proof (Forall_lookup_1 _ _ _ _ Hidle Hi). }
    destruct (Hheld eq_refl) as (j & rest' & Hj & Hothers).
    destruct (decide (i = j)) as [->|Hij].
    2:{ by specialize (Hothers i _ Hij Hi). }
    exists done, (w +:+ String c ""). repeat split; simpl; try done.
    + by rewrite Hfile, !append_assoc.
    + rewrite <-Hperm. f_equiv. apply reflexive_eq. symmetry.
      apply omap_pointwise.
      apply Forall2_insert_same.
      * intros k x Hx Hk. apply todo_idle. by eapply Hothers.
      * intros x Hx. rewrite Hi in Hx. injection Hx as <-. simpl.
        by rewrite append_assoc.
    + intros _. exists j, rest. split.
      * apply list_lookup_insert_eq. by eapply lookup_lt_Some.
      * intros k t Hk Ht. rewrite list_lookup_insert_ne in Ht by done.
        by eapply Hothers.
  - (* release *)
    destruct (lock p) eqn:Hlock.
    2:{ destruct (Hfree eq_refl) as [_ Hidle].
        by pose proof (Forall_lookup_1 _ _ _ _ Hidle Hi). }
    destruct (Hheld eq_refl) as (j & rest' & Hj & Hothers).
    destruct (decide (i = j)) as [->|Hij].
    2:{ by specialize (Hothers i _ Hij Hi). }
    assert (Forall (λ t, is_writing t = false) (<[j:=Finished]> (threads p)))
      as Hidle.
    { apply Forall_lookup_2. intros k t Ht.
      destruct (decide (k = j)) as [->|Hk].
      - rewrite list_lookup_insert_eq in Ht by (by eapply lookup_lt_Some).
        by injection Ht as <-.
      - rewrite list_lookup_insert_ne in Ht by done. by eapply Hothers. }
    exists (done ++ [w]), "". repeat split; simpl; try done.
    rewrite Hfile, concat_app. simpl. by rewrite !append_nil_r.
    rewrite <-Hperm.
    rewrite <-(take_drop_middle (threads p) j (Writing "")) by done.
    rewrite insert_app_r_alt by (rewrite length_take; lia).
    replace (j - length (take j (threads p))) with 0.
    2:{ rewrite length_take. apply lookup_lt_Some in Hi. lia. }
    simpl. rewrite !omap_app. simpl. rewrite append_nil_r.
    assert (∀ l, Forall (λ t, is_writing t = false) l →
                 omap (todo "") l = omap (todo w) l) as Hsame.
    { intros l Hl. apply omap_pointwise, Forall2_same_length_lookup_2; [done|].
      intros k a b Ha Hb. rewrite Ha in Hb. injection Hb as <-.
      apply todo_idle. by eapply Forall_lookup_1 in Hl. }
    rewrite <-(take_drop_middle (threads p) j (Writing "")) in Hidle at 1
      by done.
    rewrite insert_app_r_alt in Hidle by (rewrite length_take; lia).
    replace (j - length (take j (threads p))) with 0 in Hidle.
    2:{ rewrite length_take. apply lookup_lt_Some in Hi. lia. }
    simpl in Hidle. apply Forall_app in Hidle as [Hpre Hpost].
    apply Forall_cons in Hpost as [_ Hpost].
    rewrite !Hsame by done. solve_Permutation.
Qed.

Lemma sink_inv_reach out ts p :
  quiescent (start out ts) → rtc step (start out ts) p →
  ∃ done w, sink_inv out (omap (todo "") ts) p done w.
Proof.
  intros Hq Hsteps. apply rtc_nsteps in Hsteps as [n Hsteps].
  revert p Hsteps. induction n as [|n IH]; intros p Hsteps.
  - inversion Hsteps; subst. exists [], "". by apply sink_inv_start.
  - apply nsteps_inv_r in Hsteps as (q & Hq' & Hstep).
    destruct (IH q Hq') as (done & w & Hinv).
    by eapply sink_inv_step.
Qed.

Lemma sink_inv_quiescent out lines p done w :
  sink_inv out lines p done w → quiescent p →
  file p = out +:+ concat done ∧
  done ++ omap (todo "") (threads p) ≡ₚ lines.
Proof.
  intros (Hfile & Hperm & Hfree & Hheld) Hq.
  destruct (lock p) eqn:Hlock.
  - destruct (Hheld eq_refl) as (i & rest & Hi & _).
    by destruct (Forall_lookup_1 _ _ _ _ Hq Hi rest).
  - destruct (Hfree eq_refl) as [-> _]. by rewrite append_nil_r in Hfile.
Qed.

Lemma all_finished_quiescent p : all_finished p → quiescent p.
Proof.
  unfold all_finished, quiescent. intros H.
  eapply Forall_impl; [exact H|]. by intros t -> rest.
Qed.

Lemma all_finished_todo w ts :
  Forall (λ t, t = Finished) ts → omap (todo w) ts = [].
Proof. induction 1 as [|t ts -> _ IH]; [done|]. by cbn. Qed.

Lemma sink_inv_final out lines p done w :
  sink_inv out lines p done w → all_finished p →
  file p = out +:+ concat done ∧ done ≡ₚ lines.
Proof.
  intros Hinv Hfin.
  destruct (sink_inv_quiescent _ _ _ _ _ Hinv (all_finished_quiescent _ Hfin))
    as [Hfile Hperm].
  split; [done|].
  by rewrite (all_finished_todo _ _ Hfin), app_nil_r in Hperm.
Qed.

(** At most one thread is inside the lock. *)
Lemma sink_inv_exclusive out lines p done w i j ri rj :
  sink_inv out lines p done w →
  threads p !! i = Some (Writing ri) →
  threads p !! j = Some (Writing rj) →
  i = j.
Proof.
  intros (_ & _ & Hfree & Hheld) Hi Hj.
  destruct (lock p) eqn:Hlock.
  - destruct (Hheld eq_refl) as (k & rest & Hk & Hothers).
    destruct (decide (i = k)) as [->|Hik];
      [|by specialize (Hothers i _ Hik Hi)].
    destruct (decide (j = k)) as [->|Hjk];
      [done|by specialize (Hothers j _ Hjk Hj)].
  - destruct (Hfree eq_refl) as [_ Hidle].
    by pose proof (Forall_lookup_1 _ _ _ _ Hidle Hi).
Qed.

(** ** Reading a file that ends with a line end *)

Lemma readlines_cons c s : readlines (String c s) ≠ [].
Proof.
  simpl. destruct (Ascii.eqb c nl_char); [done|].
  destruct (Ascii.eqb c cr_char).
  - destruct s as [|c' s]; [done|]. by destruct (Ascii.eqb c' nl_char).
  - by destruct (readlines s).
Qed.

Lemma readlines_after_nl a :
  (∀ b, readlines ((a +:+ nl) +:+ b) = readlines (a +:+ nl) ++ readlines b) ∧
  (∀ c b, readlines ((String c a +:+ nl) +:+ b)
          = readlines (String c a +:+ nl) ++ readlines b).
Proof.
  induction a as [|x a [IH1 IH2]].
  - split; [done|]. intros c b. rewrite !append_cons. simpl.
    destruct (Ascii.eqb c nl_char); [done|].
    by destruct (Ascii.eqb c cr_char).
  - split; [apply IH2|]. intros c b.
    rewrite (append_cons c), (append_cons c).
    change (readlines (String c ?s)) with
      (if Ascii.eqb c nl_char then nl :: readlines s
       else if Ascii.eqb c cr_char then
         match s with
         | String c' s'' =>
             if Ascii.eqb c' nl_char then nl :: readlines s''
             else nl :: readlines s
         | EmptyString => [nl]
         end
       else match readlines s with
            | l :: ls => String c l :: ls
            | [] => [String c EmptyString]
            end).
    rewrite !(append_cons x).
    destruct (Ascii.eqb c nl_char).
    { rewrite <-!(append_cons x). by rewrite IH2. }
    destruct (Ascii.eqb c cr_char).
    { destruct (Ascii.eqb x nl_char).
      - by rewrite IH1.
      - rewrite <-!(append_cons x). by rewrite IH2. }
    rewrite <-!(append_cons x). rewrite IH2.
    pose proof (readlines_cons x (a +:+ nl)) as Hne.
    rewrite <-append_cons in Hne.
    by destruct (readlines (String x a +:+ nl)).
Qed.

Lemma endswith_nl_inv s : endswith s nl = true → ∃ a, s = a +:+ nl.
Proof.
  induction s as [|c s IH]; [done|].
  change (endswith (String c s) nl)
    with (String.eqb (String c s) nl || endswith s nl).
  intros [H|H]%orb_prop.
  - apply String.eqb_eq in H as ->. by exists "".
  - destruct (IH H) as [a ->]. by exists (String c a).
Qed.

Lemma readlines_app out b :
  out = "" ∨ endswith out nl = true →
  readlines (out +:+ b) = readlines out ++ readlines b.
Proof.
  intros [->|[a ->]%endswith_nl_inv]; [done|].
  apply readlines_after_nl.
Qed.

(** ** Every run of the pool can be completed *)

Lemma work_insert ts i x y :
  ts !! i = Some x →
  sum_list (work <$> <[i:=y]> ts) + work x = sum_list (work <$> ts) + work y.
Proof.
  revert i. induction ts as [|t ts IH]; intros [|i] Hi; try done; csimpl in *.
  - injection Hi as ->. lia.
  - specialize (IH i Hi). lia.
Qed.

Lemma idle_unfinished ts :
  Forall (λ t, is_writing t = false) ts →
  ¬ Forall (λ t, t = Finished) ts →
  ∃ i line, ts !! i = Some (Ready line).
Proof.
  induction ts as [|t ts IH]; intros Hidle Hnot.
  - by destruct Hnot.
  - apply Forall_cons in Hidle as [Ht Hidle].
    destruct t as [line|rest|]; [by exists 0, line|done|].
    destruct IH as (i & line & Hi); [done| |by exists (S i), line].
    intros Hfin. apply Hnot. by constructor.
Qed.

Lemma sink_progress out lines n :
  ∀ p done w,
    sum_list (work <$> threads p) ≤ n →
    sink_inv out lines p done w →
    ∃ p', rtc step p p' ∧ all_finished p'.
Proof.
  induction n as [|n IH]; intros p done w Hn Hinv.
  - exists p. split; [done|]. unfold all_finished.
    apply Forall_lookup_2. intros i t Hi.
    assert (work t = 0) as Ht.
    { pose proof (work_insert _ _ _ Finished Hi) as Hs. simpl in Hs. lia. }
    by destruct t.
  - destruct (decide (all_finished p)) as [Hfin|Hnot]; [by exists p|].
    assert (∃ q, step p q ∧ sum_list (work <$> threads q) ≤ n) as (q & Hq & Hm).
    { destruct Hinv as (_ & _ & Hfree & Hheld).
      destruct (lock p) eqn:Hlock.
      - destruct (Hheld eq_refl) as (i & rest & Hi & _).
        destruct rest as [|c rest].
        + eexists. split; [by eapply (step_release p i)|]. simpl.
          pose proof (work_insert _ _ _ Finished Hi) as Hs. simpl in Hs. lia.
        + eexists. split; [by eapply (step_write p i c rest)|]. simpl.
          pose proof (work_insert _ _ _ (Writing rest) Hi) as Hs.
          simpl in Hs. lia.
      - destruct (Hfree eq_refl) as [_ Hidle].
        destruct (idle_unfinished _ Hidle Hnot) as (i & line & Hi).
        eexists. split; [by eapply (step_acquire p i line)|]. simpl.
        pose proof (work_insert _ _ _ (Writing line) Hi) as Hs.
        simpl in Hs. lia. }
    destruct (sink_inv_step _ _ _ _ _ _ Hinv Hq) as (done' & w' & Hinv').
    destruct (IH q done' w' Hm Hinv') as (p' & Hsteps & Hfin).
    exists p'. split; [by eapply rtc_l|done].
Qed.

Lemma ready_lines infos :
  omap (todo "") (map (λ info, Ready (record_line info)) infos)
  = map record_line infos.
Proof. induction infos as [|info infos IH]; [done|]. cbn. by rewrite IH. Qed.

Lemma ready_quiescent out infos :
  quiescent (start out (map (λ info, Ready (record_line info)) infos)).
Proof.
  unfold quiescent. simpl. apply Forall_map, Forall_true. by intros info rest.
Qed.

(** C7.  Worker threads that append their records under the lock, the
    characters reaching the file one at a time in any interleaving: at
    most one thread is inside the lock; every run can be completed; and
    when all threads are through, the file is what it was followed by
    the lines of the records, whole, in some order: read back line by
    line it gives one serialized record per thread. *)
Theorem sink_lines_are_whole out infos p :
  rtc step (start out (map (λ info, Ready (record_line info)) infos)) p →
  (∀ i j ri rj,
     threads p !! i = Some (Writing ri) →
     threads p !! j = Some (Writing rj) → i = j) ∧
  (∃ p', rtc step p p' ∧ all_finished p') ∧
  (all_finished p →
   ∃ infos',
     infos' ≡ₚ infos ∧
     file p = out +:+ concat (map record_line infos') ∧
     (out = "" ∨ endswith out nl = true →
      readlines (file p) = readlines out ++ map record_line infos')).
Proof.
  intros Hreach.
  destruct (sink_inv_reach _ _ _ (ready_quiescent out infos) Hreach)
    as (done & w & Hinv).
  rewrite ready_lines in Hinv.
  split; [intros i j ri rj; by eapply sink_inv_exclusive|].
  split; [by eapply sink_progress|].
  intros Hfin. destruct (sink_inv_final _ _ _ _ _ Hinv Hfin) as [Hfile Hperm].
  apply Permutation_map_inv in Hperm as (infos' & -> & Hperm).
  exists infos'. split; [done|]. split; [done|].
  intros Hout. by rewrite Hfile, readlines_app, record_lines_read.
Qed.

(** ** load_dataset gives distinct identities *)

Section Ids.
Variable json_loads : string → option value.

Lemma load_dataset_from_ids lines : ∀ n seen problems ks result,
  Forall2 (λ p k, problem_key p = Ok k) problems ks →
  NoDup ks →
  (∀ k, k ∈ ks → k ∈ seen) →
  load_dataset_from json_loads n seen problems lines = Ok result →
  distinct_ids result.
Proof.
  induction lines as [|line rest IH]; intros n seen problems ks result
    Hkeys Hnodup Hseen; simpl.
  - intros [= <-]. by exists ks.
  - destruct (String.eqb (strip line) ""); [by eapply IH|].
    destruct (json_loads (strip line)) as [problem|]; [|done].
    destruct (as_dict problem) as [d|] eqn:Hd; [|done]. simpl.
    destruct (truthy _); [|done]. simpl.
    destruct (to_hkey _) as [k|] eqn:Hk; [|done]. simpl.
    case_bool_decide as Hin; [by eapply IH|].
    apply (IH _ _ _ (ks ++ [k])).
    + apply Forall2_app; [done|]. constructor; [|done].
      unfold problem_key. by rewrite Hd.
    + apply NoDup_app. split; [done|]. split; [|apply NoDup_singleton].
      intros x Hx ->%list_elem_of_singleton. by apply Hin, Hseen.
    + intros x [Hx| ->%list_elem_of_singleton]%elem_of_app; set_solver.
Qed.

Lemma load_dataset_ids lines problems :
  load_dataset json_loads lines = Ok problems → distinct_ids problems.
Proof.
  apply (load_dataset_from_ids lines 0 ∅ [] []); [done|constructor|set_solver].
Qed.

End Ids.

Lemma distinct_ids_take n problems :
  distinct_ids problems → distinct_ids (take n problems).
Proof.
  intros (ks & Hkeys & Hnodup). exists (take n ks). split.
  - by apply Forall2_take.
  - eapply sublist_NoDup; [done|apply sublist_take].
Qed.

Lemma distinct_ids_limit max_problems problems :
  distinct_ids problems → distinct_ids (limit max_problems problems).
Proof.
  intros H. unfold limit. destruct max_problems as [m|]; [|done].
  destruct (0 <=? m)%Z; by apply distinct_ids_take.
Qed.

(** ** The job list is the filtered list of all jobs *)

Lemma jobs_of_problem_spec completed cpp problem k :
  problem_key problem = Ok k →
  jobs_of_problem completed cpp problem =
    Ok (filter (λ j, fresh completed j = true)
               (map (λ i, (problem, i)) (seq 0 (Z.to_nat cpp)))).
Proof.
  intros Hk. unfold jobs_of_problem.
  assert (∀ l : list nat,
    map (λ i, (problem, i))
        (filter (λ i : nat, (k, KInt (Z.of_nat i)) ∉ completed) l) =
    filter (λ j, fresh completed j = true) (map (λ i, (problem, i)) l))
    as Hfilter.
  { assert (∀ i, fresh completed (problem, i)
                   = bool_decide ((k, KInt (Z.of_nat i)) ∉ completed)) as Hf.
    { intros i. unfold fresh, job_key. simpl. by rewrite Hk. }
    induction l as [|i l IHl]; [done|]. csimpl.
    destruct (decide ((k, KInt (Z.of_nat i)) ∉ completed)) as [Hi|Hi].
    - rewrite !filter_cons_True; [|by rewrite Hf, bool_decide_eq_true|done].
      csimpl. by rewrite IHl.
    - rewrite !filter_cons_False; [done| |done].
      by rewrite Hf, bool_decide_eq_true. }
  destruct (Z.to_nat cpp) as [|n] eqn:Hn; [done|].
  unfold problem_key in Hk.
  destruct (as_dict problem) as [d|]; [|done]. simpl in *. rewrite Hk. simpl.
  by rewrite Hfilter.
Qed.

Lemma jobs_spec completed cpp problems :
  distinct_ids problems →
  jobs completed cpp problems =
    Ok (filter (λ j, fresh completed j = true) (all_jobs cpp problems)).
Proof.
  intros (ks & Hkeys & _). unfold all_jobs.
  induction Hkeys as [|p k ps ks Hk _ IH]; [done|]. csimpl.
  rewrite (jobs_of_problem_spec _ _ _ _ Hk), IH. simpl.
  by rewrite filter_app.
Qed.

Lemma fresh_empty j : fresh ∅ j = true.
Proof.
  unfold fresh. destruct (job_key j); [|done].
  apply bool_decide_eq_true_2. set_solver.
Qed.

Lemma jobs_all cpp problems :
  distinct_ids problems → jobs ∅ cpp problems = Ok (all_jobs cpp problems).
Proof.
  intros H. rewrite (jobs_spec _ _ _ H). f_equal.
  induction (all_jobs cpp problems) as [|j js IH]; [done|].
  by rewrite filter_cons_True, IH by apply fresh_empty.
Qed.

(** ** The keys of the jobs are pairwise distinct *)

Lemma all_jobs_cons cpp p ps :
  all_jobs cpp (p :: ps) =
    map (λ i, (p, i)) (seq 0 (Z.to_nat cpp)) ++ all_jobs cpp ps.
Proof. reflexivity. Qed.

Lemma all_jobs_key cpp problems ks j :
  Forall2 (λ p k, problem_key p = Ok k) problems ks →
  j ∈ all_jobs cpp problems →
  ∃ k, k ∈ ks ∧ job_key j = Some (k, KInt (Z.of_nat j.2)).
Proof.
  induction 1 as [|p k ps ks Hk _ IH]; [by intros ?%elem_of_nil|].
  rewrite all_jobs_cons. intros [Hj|Hj]%elem_of_app.
  - apply list_elem_of_fmap in Hj as (i & -> & _). exists k.
    split; [by left|]. unfold job_key. simpl. by rewrite Hk.
  - destruct (IH Hj) as (k' & Hk' & Hjk). exists k'. split; [by right|done].
Qed.

Lemma all_jobs_keys_NoDup cpp problems :
  distinct_ids problems → NoDup (job_key <$> all_jobs cpp problems).
Proof.
  intros (ks & Hkeys & Hnodup). revert Hnodup.
  induction Hkeys as [|p k ps ks Hk Hkeys IH]; intros Hnodup;
    [constructor|].
  apply NoDup_cons in Hnodup as [Hnew Hnodup].
  rewrite all_jobs_cons, fmap_app. apply NoDup_app. split; [|split].
  - rewrite <-list_fmap_compose. apply NoDup_fmap_2; [|apply NoDup_seq].
    intros i i'. unfold job_key. simpl. rewrite Hk. intros [= H]. lia.
  - intros x Hx Hx'.
    apply list_elem_of_fmap in Hx as (j & -> & Hj).
    apply list_elem_of_fmap in Hj as (i & -> & _).
    apply list_elem_of_fmap in Hx' as (j' & Hjj' & Hj').
    destruct (all_jobs_key _ _ _ _ Hkeys Hj') as (k' & Hk' & Hjk').
    unfold job_key in Hjj' at 1. simpl in Hjj'. rewrite Hk, Hjk' in Hjj'.
    injection Hjj' as -> _. done.
  - by apply IH.
Qed.

(** ** What a task leaves in its record *)

Section Tasks.
Variable strip_examples_str : string → string.
Variable extract_code_block : string → string.
Variable describe : exn → string.
Variable withoutexemples : bool.
Variable the_client : client.
Variable uuid_of : value → nat → string.

#[local] Abbreviation task := (task strip_examples_str extract_code_block describe
                    withoutexemples the_client uuid_of).

Lemma task_fresh completed j : fresh completed j = true → task completed j = task ∅ j.
Proof.
  unfold fresh, job_key, problem_key, task, process_one_completion.
  destruct j as [problem i]. simpl.
  destruct (as_dict problem) as [p|]; [|done]. simpl.
  destruct (to_hkey (get "problem_id" VNone p)) as [k|]; simpl.
  - intros Hk%bool_decide_eq_true.
    destruct (if withoutexemples then _ else _); [|done]. simpl.
    rewrite !bool_decide_eq_false_2; [done|set_solver|by intros ?].
  - intros _. by destruct (if withoutexemples then _ else _).
Qed.

Lemma task_record completed j info :
  task completed j = Ok (Some info) →
  ∃ k pid,
    job_key j = Some (k, KInt (Z.of_nat j.2)) ∧
    lookup "problem_id" info = Some pid ∧
    to_hkey pid = Ok k ∧
    lookup "completion_index" info = Some (VInt (Z.of_nat j.2)).
Proof.
  unfold job_key, problem_key, task, process_one_completion.
  destruct j as [problem i]. simpl.
  destruct (as_dict problem) as [p|]; [|done]. simpl.
  destruct (if withoutexemples then _ else _) as [pd|]; [|done]. simpl.
  destruct (to_hkey (get "problem_id" VNone p)) as [k|] eqn:Hk; [|done].
  simpl. case_bool_decide; [done|].
  unfold try_except, tests_field.
  destruct (as_dict (get "tests" (VDict []) p)) as [tests|]; simpl.
  2:{ by destruct (strip_examples strip_examples_str (get "description" (VStr "") p)). }
  destruct (strip_examples strip_examples_str (get "description" (VStr "") p));
    simpl; intros [= <-]; by exists k, (get "problem_id" VNone p).
Qed.

End Tasks.

(** ** The ledger holds the keys of the lines that parse *)

Lemma ledger_fold json_loads lines : ∀ acc k,
  k ∈ foldl (ledger_step json_loads) acc lines ↔
  k ∈ acc ∨ ∃ line, line ∈ lines ∧ ledger_key json_loads line = Some k.
Proof.
  induction lines as [|line rest IH]; intros acc k; simpl.
  - split; [by left|]. intros [?|(? & ?%elem_of_nil & _)]; done.
  - rewrite IH. unfold ledger_step.
    destruct (ledger_key json_loads line) as [k'|] eqn:Hk'.
    + rewrite elem_of_union, elem_of_singleton. split.
      * intros [[->|?]|(l & Hl & Hlk)]; [right|by left|right].
        -- exists line. split; [by left|done].
        -- exists l. split; [by right|done].
      * intros [?|(l & [->|Hl]%elem_of_cons & Hlk)].
        -- left. by right.
        -- left. left. congruence.
        -- right. by exists l.
    + split.
      * intros [?|(l & Hl & Hlk)]; [by left|right].
        exists l. split; [by right|done].
      * intros [?|(l & [->|Hl]%elem_of_cons & Hlk)]; [by left|congruence|].
        right. by exists l.
Qed.

(** ** Lines already there and lines still to come *)

Lemma filter_none {A} (P : A → Prop) `{∀ x, Decision (P x)} l :
  Forall (λ x, ¬ P x) l → filter P l = [].
Proof.
  induction 1 as [|x l Hx _ IH]; [done|]. by rewrite filter_cons_False.
Qed.

Lemma filter_all {A} (P : A → Prop) `{∀ x, Decision (P x)} l :
  Forall P l → filter P l = l.
Proof.
  induction 1 as [|x l Hx _ IH]; [done|]. by rewrite filter_cons_True, IH.
Qed.

Lemma resume_lines `{Countable K} (lk : string → option K)
    (ledger : gset K) (all done : list string) :
  NoDup (lk <$> all) →
  (∀ l, l ∈ all → is_Some (lk l)) →
  done ⊆+ all →
  (∀ k, k ∈ ledger ↔ ∃ l, l ∈ done ∧ lk l = Some k) →
  done ++ filter (λ l, unrecorded lk ledger l = true) all ≡ₚ all.
Proof.
  intros Hnodup Hkeyed Hsub Hledger.
  destruct (submseteq_Permutation _ _ Hsub) as [rest Hperm].
  assert (NoDup (lk <$> (done ++ rest))) as Hnodup' by (by rewrite <-Hperm).
  assert (∀ l, l ∈ done ++ rest → is_Some (lk l)) as Hkeyed'.
  { intros l Hl. apply Hkeyed. by rewrite Hperm. }
  clear Hnodup Hkeyed. rename Hnodup' into Hnodup, Hkeyed' into Hkeyed.
  etrans; [|symmetry; exact Hperm]. f_equiv.
  rewrite Hperm, filter_app, filter_none, filter_all; [done| |].
  - apply Forall_forall. intros l Hl. unfold unrecorded.
    destruct (Hkeyed l) as [k Hk]; [set_solver|]. rewrite Hk.
    apply bool_decide_eq_true. intros (l' & Hl' & Hk')%Hledger.
    rewrite fmap_app in Hnodup. apply NoDup_app in Hnodup as (_ & Hdisj & _).
    apply (Hdisj (Some k)).
    + apply list_elem_of_fmap. by exists l'.
    + apply list_elem_of_fmap. by exists l.
  - apply Forall_forall. intros l Hl. unfold unrecorded.
    destruct (Hkeyed l) as [k Hk]; [set_solver|]. rewrite Hk.
    rewrite bool_decide_eq_true. intros Hnot. apply Hnot, Hledger.
    by exists l.
Qed.

Lemma NoDup_fmap_inj {A B} (f : A → B) (l : list A) x y :
  NoDup (f <$> l) → x ∈ l → y ∈ l → f x = f y → x = y.
Proof.
  induction l as [|a l IH]; csimpl; [by intros _ ?%elem_of_nil|].
  intros [Ha Hl]%NoDup_cons [->|Hx]%elem_of_cons [->|Hy]%elem_of_cons Hxy;
    [done| | |by apply IH].
  - destruct Ha. rewrite Hxy. apply list_elem_of_fmap. by exists y.
  - destruct Ha. rewrite <-Hxy. apply list_elem_of_fmap. by exists x.
Qed.

(** ** Resuming a batch *)

Section ResumeLemmas.
Variable json_loads : string → option value.
Variable strip_examples_str : string → string.
Variable extract_code_block : string → string.
Variable describe : exn → string.
Variable withoutexemples : bool.
Variable the_client : client.
Variable uuid_of : value → nat → string.
Variable completions_per_problem : Z.

#[local] Abbreviation task := (task strip_examples_str extract_code_block
  describe withoutexemples the_client uuid_of).
#[local] Abbreviation dispatch := (dispatch json_loads strip_examples_str
  extract_code_block describe withoutexemples the_client uuid_of
  completions_per_problem).
#[local] Abbreviation lk := (ledger_key json_loads).

(** The records of the jobs of [batch] are read back as they were
    written. *)
Variable batch : list job.
Hypothesis codec : ∀ j info,
  j ∈ batch →
  task ∅ j = Ok (Some info) →
  json_loads (record_line info) = Some (VDict info).

Lemma line_key j info :
  j ∈ batch →
  task ∅ j = Ok (Some info) → lk (record_line info) = job_key j.
Proof using codec.
  intros Hj Ht. unfold ledger_key. rewrite (codec _ _ Hj Ht).
  destruct (task_record _ _ _ _ _ _ _ _ _ Ht) as (k & pid & -> & -> & -> & Hi).
  unfold get. by rewrite Hi.
Qed.

Lemma todo_thread_of r : todo "" (thread_of r) = line_of r.
Proof. by destruct r as [[info|]|]. Qed.

Lemma threads_lines completed js :
  omap (todo "") (map (λ j, thread_of (task completed j)) js)
  = omap (λ j, line_of (task completed j)) js.
Proof.
  induction js as [|j js IH]; [done|]. cbn. by rewrite todo_thread_of, IH.
Qed.

Lemma threads_quiescent out completed js :
  quiescent (start out (map (λ j, thread_of (task completed j)) js)).
Proof.
  unfold quiescent. simpl. apply Forall_map, Forall_true. intros j rest.
  by destruct (task completed j) as [[info|]|].
Qed.

Lemma lines_are_records (js : list job) (l : string) :
  l ∈ omap (λ j, line_of (task ∅ j)) js →
  ∃ j info, j ∈ js ∧ task ∅ j = Ok (Some info) ∧ l = record_line info.
Proof.
  intros (j & Hj & Hl)%list_elem_of_omap.
  destruct (task ∅ j) as [[info|]|] eqn:Ht; try done.
  injection Hl as <-. by exists j, info.
Qed.

Lemma records_read (ls : list string) :
  Forall (λ l, ∃ info, l = record_line info) ls →
  readlines (concat ls) = ls.
Proof.
  intros H.
  assert (∃ infos, ls = map record_line infos) as [infos ->].
  { induction H as [|l ls [info ->] _ [infos ->]]; [by exists []|].
    by exists (info :: infos). }
  apply record_lines_read.
Qed.

Lemma lines_keys_sublist (js : list job) :
  (∀ j, j ∈ js → j ∈ batch) →
  lk <$> omap (λ j, line_of (task ∅ j)) js `sublist_of` job_key <$> js.
Proof using codec.
  induction js as [|j js IH]; intros Hjs; [done|]. cbn.
  assert (∀ j, j ∈ js → j ∈ batch) as Hjs' by (intros ??; apply Hjs; by right).
  assert (j ∈ batch) as Hj by (apply Hjs; by left).
  destruct (task ∅ j) as [[info|]|] eqn:Ht; cbn.
  - rewrite (line_key _ _ Hj Ht). constructor. by apply IH.
  - constructor. by apply IH.
  - constructor. by apply IH.
Qed.

Lemma omap_cons {A B} (f : A → option B) x l :
  omap f (x :: l) = match f x with
                    | Some y => y :: omap f l
                    | None => omap f l
                    end.
Proof. reflexivity. Qed.

Lemma lines_of_fresh ledger (js : list job) :
  (∀ j, j ∈ js → j ∈ batch) →
  omap (λ j, line_of (task ∅ j)) (filter (λ j, fresh ledger j = true) js)
  = filter (λ l, unrecorded lk ledger l = true)
           (omap (λ j, line_of (task ∅ j)) js).
Proof using codec.
  induction js as [|j js IH]; intros Hjs; [done|].
  assert (j ∈ batch) as Hj by (apply Hjs; by left).
  assert (∀ j, j ∈ js → j ∈ batch) as Hjs' by (intros ??; apply Hjs; by right).
  specialize (IH Hjs').
  assert (∀ info, task ∅ j = Ok (Some info) →
            unrecorded lk ledger (record_line info) = fresh ledger j) as Hsame.
  { intros info Ht. unfold unrecorded, fresh. by rewrite (line_key _ _ Hj Ht). }
  rewrite (omap_cons _ j js).
  destruct (fresh ledger j) eqn:Hf.
  - rewrite filter_cons_True by done. rewrite omap_cons, IH.
    destruct (task ∅ j) as [[info|]|] eqn:Ht; unfold line_of; try done.
    by rewrite filter_cons_True by (by rewrite Hsame).
  - rewrite filter_cons_False by (by rewrite Hf). rewrite IH.
    destruct (task ∅ j) as [[info|]|] eqn:Ht; unfold line_of; try done.
    by rewrite filter_cons_False by (by rewrite Hsame).
Qed.

Lemma threads_of_fresh ledger (js : list job) :
  map (λ j, thread_of (task ledger j)) (filter (λ j, fresh ledger j = true) js)
  = map (λ j, thread_of (task ∅ j)) (filter (λ j, fresh ledger j = true) js).
Proof.
  apply map_ext_in. intros j Hj%list_elem_of_In%list_elem_of_filter.
  destruct Hj as [Hf _]. by rewrite task_fresh.
Qed.

End ResumeLemmas.

Section Resume.
Variable json_loads : string → option value.
Variable strip_examples_str : string → string.
Variable extract_code_block : string → string.
Variable describe : exn → string.
Variable withoutexemples : bool.
Variable the_client : client.
Variable uuid_of : value → nat → string.
Variable completions_per_problem : Z.

#[local] Abbreviation task := (task strip_examples_str extract_code_block
  describe withoutexemples the_client uuid_of).
#[local] Abbreviation dispatch := (dispatch json_loads strip_examples_str
  extract_code_block describe withoutexemples the_client uuid_of
  completions_per_problem).
#[local] Abbreviation lk := (ledger_key json_loads).


End Resume.

(** C7 at two records appended to an empty file. *)
Lemma sink_lines_are_whole_witness :
  ∃ p infos',
    rtc step (start "" (map (λ info, Ready (record_line info))
                            Demo.two_records)) p ∧
    all_finished p ∧
    infos' ≡ₚ Demo.two_records ∧
    readlines (file p) = map record_line infos'.
Proof.
  destruct (sink_lines_are_whole "" Demo.two_records _ (rtc_refl _ _))
    as (_ & (p & Hreach & Hfin) & _).
  destruct (sink_lines_are_whole "" Demo.two_records p Hreach)
    as (_ & _ & Hfinal).
  destruct (Hfinal Hfin) as (infos' & Hperm & _ & Hread).
  exists p, infos'. split; [done|]. split; [done|]. split; [done|].
  apply Hread. by left.
Defined.

